(** * Sitemap parser: shallow embedding of [parser.py] and its properties

    The development follows the layout of the program:
    - [Re]: the fragment of Python's [re] used by the categorizer
      (pattern compilation and [re.search]);
    - [UrlLib]: [urllib.parse.urlparse], as far as the [path] component;
    - [ET]: [xml.etree.ElementTree] elements, [find], [findall];
    - [Pd]: the part of [pandas.DataFrame] used by the exporter;
    - the class [SitemapParser] and [main], in a state-and-exception monad.

    A Python [str] is modelled by a Rocq [string], read as the UTF-8
    encoding of the text.  Every string operation the program performs
    (search for ASCII delimiters, removal of ASCII control characters,
    the class [[^/]]) commutes with that encoding. *)

From Stdlib Require Import Ascii String.
From stdpp Require Import base tactics option list strings gmap.

Set Default Proof Using "Type".
Set Warnings "-clear-no-such-hyp".
Local Open Scope string_scope.
Local Open Scope list_scope.

(** ** Characters and strings *)

Abbreviation chars := (list ascii).

Definition newline : ascii := "010"%char.
Definition tab : ascii := "009"%char.
Definition carriage_return : ascii := "013"%char.
Definition slash : ascii := "/"%char.

Notation "'«' s '»'" := (list_ascii_of_string s) (at level 0, format "'«' s '»'").

(** ** [re]: patterns, compilation, search *)

Module Re.

(** One character position of a pattern: a literal, or a negated set
    [[^...]]. *)
Inductive atom : Type :=
| Lit (c : ascii)
| NotIn (cs : chars).

(** A quantified atom, or the end anchor [$]. *)
Inductive item : Type :=
| One (a : atom)
| Opt (a : atom)      (* a? *)
| Plus (a : atom)     (* a+ *)
| Dollar.             (* $  *)

Definition regex : Type := list item.

Definition atom_ok (a : atom) (c : ascii) : bool :=
  match a with
  | Lit d => bool_decide (c = d)
  | NotIn cs => bool_decide (c ∉ cs)
  end.

(** Characters with a meaning of their own in a pattern; a pattern that
    uses one outside the supported forms is rejected by [compile]. *)
Definition special : chars := «".^$*+?{}[]\|()"».

Fixpoint span_set (fuel : nat) (s : chars) : option (chars * chars) :=
  match fuel, s with
  | S fuel', c :: t =>
      if bool_decide (c = "]"%char) then Some ([], t)
      else if bool_decide (c = "\"%char) then None
      else '(cs, rest) ← span_set fuel' t; Some (c :: cs, rest)
  | _, _ => None
  end.

Definition read_atom (s : chars) : option (option atom * chars) :=
  match s with
  | [] => None
  | c :: t =>
      if bool_decide (c = "$"%char) then Some (None, t)
      else if bool_decide (c = "["%char) then
        match t with
        | d :: t' =>
            if bool_decide (d = "^"%char) then
              '(cs, rest) ← span_set (length t') t';
              if bool_decide (cs = []) then None else Some (Some (NotIn cs), rest)
            else None
        | [] => None
        end
      else if bool_decide (c ∈ special) then None
      else Some (Some (Lit c), t)
  end.

Definition quantify (a : atom) (s : chars) : option (item * chars) :=
  match s with
  | q :: t =>
      if bool_decide (q = "?"%char) then Some (Opt a, t)
      else if bool_decide (q = "+"%char) then Some (Plus a, t)
      else if bool_decide (q ∈ «"*{"») then None
      else Some (One a, s)
  | [] => Some (One a, s)
  end.

Fixpoint compile_chars (fuel : nat) (s : chars) : option regex :=
  match s with
  | [] => Some []
  | _ =>
      match fuel with
      | O => None
      | S fuel' =>
          '(oa, rest) ← read_atom s;
          '(it, rest') ← match oa with
                         | None => Some (Dollar, rest)
                         | Some a => quantify a rest
                         end;
          re ← compile_chars fuel' rest';
          Some (it :: re)
      end
  end.

(** [re.compile] on the supported fragment: literals, [[^...]], the
    postfix quantifiers [?] and [+], and [$].  [None]: the pattern is
    outside the fragment. *)
Definition compile (pattern : string) : option regex :=
  compile_chars (String.length pattern) «pattern».

(** [$] without [re.MULTILINE]: at the end of the string, or just
    before a newline that is the last character. *)
Definition at_end (s : chars) : bool :=
  match s with
  | [] => true
  | [c] => bool_decide (c = newline)
  | _ => false
  end.

Fixpoint match_plus (a : atom) (k : chars → bool) (s : chars) : bool :=
  match s with
  | [] => false
  | c :: t => atom_ok a c && (k t || match_plus a k t)
  end.

(** Does [re] match at the very start of [s]? *)
Fixpoint match_here (re : regex) (s : chars) : bool :=
  match re with
  | [] => true
  | One a :: re' =>
      match s with
      | c :: t => atom_ok a c && match_here re' t
      | [] => false
      end
  | Opt a :: re' =>
      match s with
      | c :: t => atom_ok a c && match_here re' t
      | [] => false
      end || match_here re' s
  | Plus a :: re' => match_plus a (match_here re') s
  | Dollar :: re' => at_end s && match_here re' s
  end.

(** Try every start position, the end of the string included. *)
Fixpoint search_chars (re : regex) (s : chars) : bool :=
  match_here re s ||
  match s with
  | [] => false
  | _ :: t => search_chars re t
  end.

(** The truth value of [re.search(pattern, s)]: a match object is
    truthy, [None] is falsy. *)
Definition search (pattern s : string) : bool :=
  match compile pattern with
  | Some re => search_chars re «s»
  | None => false
  end.

(** *** Meaning of a pattern, stated independently of the matcher.

    [denote re m rest]: [re] consumes exactly [m] when [rest] is what
    follows [m] in the subject. *)
Fixpoint denote (re : regex) (m rest : chars) : Prop :=
  match re with
  | [] => m = []
  | One a :: re' =>
      ∃ c m', m = c :: m' ∧ atom_ok a c = true ∧ denote re' m' rest
  | Opt a :: re' =>
      denote re' m rest ∨
      ∃ c m', m = c :: m' ∧ atom_ok a c = true ∧ denote re' m' rest
  | Plus a :: re' =>
      ∃ seg m', m = seg ++ m' ∧ seg ≠ [] ∧
                Forall (λ c, atom_ok a c = true) seg ∧ denote re' m' rest
  | Dollar :: re' =>
      (m ++ rest = [] ∨ m ++ rest = [newline]) ∧ denote re' m rest
  end.

End Re.

(** ** [urllib.parse]: [urlparse], as far as the [path] component

    After CPython 3.11 ([Lib/urllib/parse.py]).  The two checks that need
    tables outside this development (IP address literals in brackets,
    Unicode NFKC normalisation of a non-ASCII authority) are taken as
    parameters. *)

Module UrlLib.

Class NetlocChecks : Type := {
  (** [_check_bracketed_netloc]: [false] when it raises [ValueError]. *)
  check_bracketed_netloc : chars → bool;
  (** The NFKC part of [_checknetloc], reached only for a non-ASCII
      authority: [false] when it raises [ValueError]. *)
  nfkc_netloc_ok : chars → bool
}.

Definition code (c : ascii) : N := N_of_ascii c.

Definition isascii (c : ascii) : bool := (code c <? 128)%N.
Definition isupper (c : ascii) : bool := (65 <=? code c)%N && (code c <=? 90)%N.
Definition islower (c : ascii) : bool := (97 <=? code c)%N && (code c <=? 122)%N.
Definition isdigit (c : ascii) : bool := (48 <=? code c)%N && (code c <=? 57)%N.
Definition isalpha (c : ascii) : bool := isupper c || islower c.

Definition lower (c : ascii) : ascii :=
  if isupper c then ascii_of_N (code c + 32) else c.

Definition scheme_char (c : ascii) : bool :=
  isalpha c || isdigit c || bool_decide (c ∈ «"+-."»).

(** [_WHATWG_C0_CONTROL_OR_SPACE]: code points 0 to 32. *)
Definition c0_control_or_space (c : ascii) : bool := (code c <=? 32)%N.

(** [_UNSAFE_URL_BYTES_TO_REMOVE]. *)
Definition unsafe_url_bytes : chars := [tab; carriage_return; newline].

Definition uses_params : list string :=
  [""; "ftp"; "hdl"; "prospero"; "http"; "imap"; "https"; "shttp"; "rtsp";
   "rtspu"; "sip"; "sips"; "mms"; "sftp"; "tel"].

Fixpoint lstrip (p : ascii → bool) (s : chars) : chars :=
  match s with
  | c :: t => if p c then lstrip p t else s
  | [] => []
  end.

(** [s.partition(c)] when [c] occurs in [s]: the text before the first
    occurrence and the text after it. *)
Fixpoint partition (c : ascii) (s : chars) : option (chars * chars) :=
  match s with
  | [] => None
  | x :: t =>
      if bool_decide (x = c) then Some ([], t)
      else '(a, b) ← partition c t; Some (x :: a, b)
  end.

(** Split at the last occurrence of [c]: the text before it, and the
    text from it on ([s[:k]], [s[k:]] for [k = s.rfind(c)]). *)
Fixpoint rsplit_at (c : ascii) (s : chars) : option (chars * chars) :=
  match s with
  | [] => None
  | x :: t =>
      match rsplit_at c t with
      | Some (a, b) => Some (x :: a, b)
      | None => if bool_decide (x = c) then Some ([], s) else None
      end
  end.

(** [_splitnetloc(url, 2)] for a [url] that starts with two slashes;
    the argument is the text after them. *)
Fixpoint splitnetloc (s : chars) : chars * chars :=
  match s with
  | [] => ([], [])
  | c :: t =>
      if bool_decide (c ∈ «"/?#"») then ([], s)
      else let '(a, b) := splitnetloc t in (c :: a, b)
  end.

Record SplitResult : Type := {
  scheme : chars; netloc : chars; path : chars; query : chars; fragment : chars
}.

Definition split_scheme (url : chars) : chars * chars :=
  match partition ":" url with
  | Some (c :: pre, post) =>
      if isascii c && isalpha c && forallb scheme_char (c :: pre)
      then (lower <$> (c :: pre), post)
      else ([], url)
  | _ => ([], url)
  end.

Definition cut (c : ascii) (s : chars) : chars * chars :=
  match partition c s with
  | Some (a, b) => (a, b)
  | None => (s, [])
  end.

(** The text after [//], when [url[:2] == '//']. *)
Definition after_slashes (url : chars) : option chars :=
  match url with
  | c1 :: c2 :: rest =>
      if bool_decide (c1 = slash) && bool_decide (c2 = slash)
      then Some rest else None
  | _ => None
  end.

Section Checks.
Context `{NetlocChecks}.

Definition brackets_ok (nl : chars) : bool :=
  let o := bool_decide ("["%char ∈ nl) in
  let c := bool_decide ("]"%char ∈ nl) in
  if o && c then check_bracketed_netloc nl else negb (o || c).

Definition checknetloc (nl : chars) : bool :=
  bool_decide (nl = []) || forallb isascii nl || nfkc_netloc_ok nl.

(** [urlsplit(url)]; [None] stands for [ValueError]. *)
Definition urlsplit (url : chars) : option SplitResult :=
  let url := lstrip c0_control_or_space url in
  let url := filter (λ c, c ∉ unsafe_url_bytes) url in
  let '(sch, url) := split_scheme url in
  '(nl, url) ← match after_slashes url with
               | Some rest =>
                   let '(nl, url') := splitnetloc rest in
                   if brackets_ok nl then Some (nl, url') else None
               | None => Some ([], url)
               end;
  let '(url, frag) := cut "#" url in
  let '(url, qry) := cut "?" url in
  if checknetloc nl
  then Some {| scheme := sch; netloc := nl; path := url;
               query := qry; fragment := frag |}
  else None.

(** [_splitparams(url)], for a [url] that contains [;]. *)
Definition splitparams (url : chars) : chars * chars :=
  match rsplit_at slash url with
  | Some (a, b) =>
      match partition ";" b with
      | Some (b1, b2) => (a ++ b1, b2)
      | None => (url, [])
      end
  | None => cut ";" url
  end.

(** [urlparse(url).path]. *)
Definition urlparse_path_chars (url : chars) : option chars :=
  r ← urlsplit url;
  if bool_decide (string_of_list_ascii (scheme r) ∈ uses_params)
     && bool_decide (";"%char ∈ path r)
  then Some (splitparams (path r)).1
  else Some (path r).

Definition urlparse_path (url : string) : option string :=
  string_of_list_ascii <$> urlparse_path_chars «url».
End Checks.

End UrlLib.

(** ** [xml.etree.ElementTree]: elements and the two path queries *)

Module ET.

#[local] Unset Elimination Schemes.

(** An element: its tag in Clark notation ([{uri}local], or [local]
    when it is in no namespace), its text ([None] when there is none)
    and its child elements in document order. *)
Inductive Element : Type :=
| Elem (tag : string) (text : option string) (children : list Element).

#[local] Set Elimination Schemes.

Definition tag (e : Element) : string := let 'Elem t _ _ := e in t.
Definition text (e : Element) : option string := let 'Elem _ x _ := e in x.
Definition children (e : Element) : list Element := let 'Elem _ _ cs := e in cs.

(** [e.iter()]: [e] and all its descendants, in document order. *)
Fixpoint iter (e : Element) : list Element :=
  match e with
  | Elem _ _ cs => e :: concat (iter <$> cs)
  end.

Definition descendants (e : Element) : list Element :=
  concat (iter <$> children e).

(** The tag a prefixed name stands for under a prefix table.  The
    parser only uses the prefix [sm], which its table defines; for an
    unknown prefix ElementPath raises instead. *)
Definition qname (namespaces : gmap string string) (prefix local : string)
  : string :=
  "{" +:+ namespaces !!! prefix +:+ "}" +:+ local.

(** [e.find('./prefix:local', namespaces)]: the first child with that
    tag. *)
Definition find (e : Element) (prefix local : string)
    (namespaces : gmap string string) : option Element :=
  head (filter (λ c, tag c = qname namespaces prefix local) (children e)).

(** [e.findall('.//prefix:local', namespaces)]: the descendants with
    that tag ([e] itself excluded), in document order. *)
Definition findall (e : Element) (prefix local : string)
    (namespaces : gmap string string) : list Element :=
  filter (λ c, tag c = qname namespaces prefix local) (descendants e).

End ET.

(** ** [pandas]: the frame operations of the exporter *)

Module Pd.

(** A record handed to [DataFrame]: its keys in insertion order. *)
Definition dict : Type := list (string * option string).

Record DataFrame : Type := {
  columns : list string;
  rows : list (list (option string))
}.

Definition keys (d : dict) : list string := d.*1.

Definition get (d : dict) (k : string) : option string :=
  kv ← head (filter (λ kv : string * option string, kv.1 = k) d); kv.2.

(** Column labels of [DataFrame(records)]: the keys of the records, in
    order of first appearance; none for an empty list. *)
Definition union_keys (ds : list dict) : list string :=
  foldl (λ acc d, acc ++ filter (λ k, k ∉ acc) (remove_dups (keys d))) [] ds.

Definition from_records (ds : list dict) : DataFrame :=
  let cols := union_keys ds in
  {| columns := cols; rows := (λ d, get d <$> cols) <$> ds |}.

(** [df[col]]: [None] stands for [KeyError]. *)
Definition getitem (df : DataFrame) (col : string)
  : option (list (option string)) :=
  i ← fst <$> list_find (λ c, c = col) (columns df);
  Some ((λ r, r !! i ≫= id) <$> rows df).

(** [series.value_counts().to_dict()]: missing values are not counted. *)
Definition value_counts (col : list (option string)) : gmap string nat :=
  foldr (λ v m, match v with
                | Some s => <[s := S (default 0 (m !! s))]> m
                | None => m
                end) ∅ col.

End Pd.

(** ** The program state and its exceptions *)

Inductive exn : Type :=
| ParseError          (* xml.etree.ElementTree.ParseError *)
| RequestException    (* requests.exceptions.RequestException *)
| AttributeError
| ValueError
| KeyError
| RecursionError
| WriteError.         (* whatever [to_excel] raises *)

Global Instance exn_eq_dec : EqDecision exn.
Proof. solve_decision. Defined.

(** What the logger is asked to record, in order. *)
Inductive log_event : Type :=
| Fetching (sitemap_url : string)     (* "Fetching sitemap from ..." *)
| FetchError                          (* "Error fetching sitemap: ..." *)
| IndexFound                          (* "Found a sitemap index, ..." *)
| FoundTotal (n : nat)                (* "Found n URLs in total" *)
| XmlError                            (* "Error parsing XML: ..." *)
| Exported (output_file : string)     (* "Results exported to ..." *)
| Summary (categories : gmap string nat)
| ProcessingError (e : exn).          (* "Error processing sitemap: ..." *)

(** The world outside the program and the libraries that talk to it;
    [Net] is the type of the states of that world. *)
Class Platform (Net : Type) : Type := {
  (** [requests.get(url, timeout=30)] followed by [raise_for_status()]
      and [.text]: the body, or [None] for a [RequestException]. *)
  requests_get : Net → string → option string * Net;
  (** [ET.fromstring]: [None] for a [ParseError]. *)
  fromstring : string → option ET.Element;
  (** Does [df.to_excel(path, index=False)] succeed? *)
  to_excel_ok : string → Pd.DataFrame → bool;
  (** [datetime.now().strftime('%Y%m%d_%H%M%S')]. *)
  strftime_now : Net → string;
  (** How many nested calls of [parse_sitemap] the interpreter allows. *)
  recursion_limit : nat;
  netloc_checks :: UrlLib.NetlocChecks
}.

Record url_record : Type := { url : string; lastmod : option string }.

Record categorized_record : Type := {
  c_url : string; c_category : string; c_lastmod : option string
}.

Section Program.
Variable Net : Type.

Record state : Type := {
  urls : list url_record;               (* self.urls *)
  net : Net;
  files : gmap string Pd.DataFrame;     (* the files written so far *)
  log : list log_event
}.

Definition set_urls (f : list url_record → list url_record) (st : state) :=
  {| urls := f (urls st); net := net st; files := files st; log := log st |}.
Definition set_net (n : Net) (st : state) :=
  {| urls := urls st; net := n; files := files st; log := log st |}.
Definition set_files (f : gmap string Pd.DataFrame → gmap string Pd.DataFrame)
    (st : state) :=
  {| urls := urls st; net := net st; files := f (files st); log := log st |}.
Definition add_log (ev : log_event) (st : state) :=
  {| urls := urls st; net := net st; files := files st; log := log st ++ [ev] |}.

(** *** State and exceptions *)

Inductive result (A : Type) : Type :=
| Ok (a : A) (st : state)
| Raise (e : exn) (st : state).
Arguments Ok {A} a st.
Arguments Raise {A} e st.

Definition M (A : Type) : Type := state → result A.

Definition ret {A} (a : A) : M A := λ st, Ok a st.
Definition raise {A} (e : exn) : M A := λ st, Raise e st.
Definition bind {A B} (m : M A) (k : A → M B) : M B :=
  λ st, match m st with
        | Ok a st' => k a st'
        | Raise e st' => Raise e st'
        end.
Definition logger (ev : log_event) : M unit := λ st, Ok () (add_log ev st).

(** [try: m except e: logger...(ev); raise]. *)
Definition except_log_raise {A} (e : exn) (ev : log_event) (m : M A) : M A :=
  λ st, match m st with
        | Raise e' st' =>
            if bool_decide (e' = e) then Raise e' (add_log ev st')
            else Raise e' st'
        | r => r
        end.

Fixpoint for_each {A} (f : A → M unit) (l : list A) : M unit :=
  match l with
  | [] => ret ()
  | x :: l' => bind (f x) (λ _, for_each f l')
  end.

End Program.

Arguments Build_state {Net} _ _ _ _.
Arguments urls {Net} _.
Arguments net {Net} _.
Arguments files {Net} _.
Arguments log {Net} _.
Arguments set_urls {Net} _ _.
Arguments set_net {Net} _ _.
Arguments set_files {Net} _ _.
Arguments add_log {Net} _ _.
Arguments Ok {Net A} _ _.
Arguments Raise {Net A} _ _.
Arguments ret {Net A} _ _.
Arguments raise {Net A} _ _.
Arguments bind {Net A B} _ _ _.
Arguments logger {Net} _ _.
Arguments except_log_raise {Net A} _ _ _ _.
Arguments for_each {Net A} _ _ _.

Notation "'do' x <- m ; k" := (bind m (λ x, k))
  (at level 10, x name, m at level 100, k at level 200,
   format "'[v' 'do'  x  <-  m ; '/' k ']'").
Notation "m ;; k" := (bind m (λ _, k))
  (at level 100, k at level 200, right associativity,
   format "'[v' m ;; '/' k ']'").

(** ** [class SitemapParser] *)

Section SitemapParser.
Context `{Platform Net}.
Local Abbreviation state := (state Net).
Local Abbreviation result := (result Net).
Local Abbreviation M := (M Net).

Definition sitemap_ns : string := "http://www.sitemaps.org/schemas/sitemap/0.9".

(** [self.namespaces]. *)
Definition namespaces : gmap string string := {[ "sm" := sitemap_ns ]}.

(** [__init__]. *)
Definition init : M unit := λ st, Ok () (set_urls (λ _, []) st).

(** [str(x)] for a value that is a string or [None]. *)
Definition py_str (x : option string) : string := default "None" x.

(** A string or [None] used as a condition. *)
Definition truthy (x : option string) : bool :=
  match x with
  | Some s => negb (bool_decide (s = ""))
  | None => false
  end.

Definition fetch_sitemap (sitemap_url : string) : M string :=
  except_log_raise RequestException FetchError
    (logger (Fetching sitemap_url) ;;
     λ st, match requests_get (net st) sitemap_url with
           | (Some body, n) => Ok body (set_net n st)
           | (None, n) => Raise RequestException (set_net n st)
           end).

(** The body of the loop over [url_tags]. *)
Definition visit_url (u : ET.Element) : M unit :=
  match ET.find u "sm" "loc" namespaces with
  | Some loc =>
      if truthy (ET.text loc) then
        let lastmod := ET.find u "sm" "lastmod" namespaces in
        let lastmod_text := lastmod ≫= ET.text in
        λ st, Ok () (set_urls (λ l, l ++ [{| url := py_str (ET.text loc);
                                            lastmod := lastmod_text |}]) st)
      else ret ()
  | None => ret ()
  end.

(** The body of the loop over [sitemap_tags]; [parse] is the recursive
    call. *)
Definition visit_sitemap (parse : string → M unit) (sitemap : ET.Element)
  : M unit :=
  do sub_sitemap_url <-
     match ET.find sitemap "sm" "loc" namespaces with
     | Some loc => ret (ET.text loc)
     | None => raise AttributeError
     end;
  (* the f-string of the log line and [requests] both apply [str] *)
  do sub_content <- fetch_sitemap (py_str sub_sitemap_url);
  parse sub_content.

(** [parse_sitemap], with the number of nested calls still allowed. *)
Fixpoint parse_sitemap_depth (depth : nat) (sitemap_content : string) : M unit :=
  match depth with
  | O => raise RecursionError
  | S depth' =>
      except_log_raise ParseError XmlError
        (do root <- (λ st, match fromstring sitemap_content with
                           | Some root => Ok root st
                           | None => Raise ParseError st
                           end);
         let sitemap_tags := ET.findall root "sm" "sitemap" namespaces in
         (if bool_decide (sitemap_tags = []) then ret ()
          else
            logger IndexFound ;;
            for_each (visit_sitemap (parse_sitemap_depth depth')) sitemap_tags) ;;
         let url_tags := ET.findall root "sm" "url" namespaces in
         for_each visit_url url_tags ;;
         λ st, logger (FoundTotal (length (urls st))) st)
  end.

Definition parse_sitemap : string → M unit := parse_sitemap_depth recursion_limit.

Definition product_pattern : string := "/products?/[^/]+/?$".
Definition collection_pattern : string := "/collections?/[^/]+/?$".
Definition blog_pattern : string := "/blogs?/[^/]+/[^/]+/?$".

(** The category chosen from [path] in the loop of [categorize_urls]. *)
Definition category_of_path (path : string) : string :=
  if Re.search product_pattern path then "product"
  else if Re.search collection_pattern path then "collection"
  else if Re.search blog_pattern path then "blog"
  else "page".

(** One iteration of the loop of [categorize_urls]; [None] when
    [urlparse] raises. *)
Definition categorize_url (url_data : url_record) : option categorized_record :=
  path ← UrlLib.urlparse_path (url url_data);
  Some {| c_url := url url_data;
          c_category := category_of_path path;
          c_lastmod := lastmod url_data |}.

Definition categorize_urls : M (list categorized_record) :=
  λ st, match mapM categorize_url (urls st) with
        | Some categorized_urls => Ok categorized_urls st
        | None => Raise ValueError st
        end.

Definition to_dict (r : categorized_record) : Pd.dict :=
  [("url", Some (c_url r)); ("category", Some (c_category r));
   ("lastmod", c_lastmod r)].

(** The file name the exporter writes to. *)
Definition output_path (output_file : option string) (n : Net) : string :=
  if truthy output_file then py_str output_file
  else "sitemap_results_" +:+ strftime_now n +:+ ".xlsx".

Definition export_to_excel (categorized_urls : list categorized_record)
    (output_file : option string) : M string :=
  let df := Pd.from_records (to_dict <$> categorized_urls) in
  do output_file <- (λ st, Ok (output_path output_file (net st)) st);
  (λ st, if to_excel_ok output_file df
         then Ok () (set_files <[output_file := df]> st)
         else Raise WriteError st) ;;
  logger (Exported output_file) ;;
  do col <- (λ st, match Pd.getitem df "category" with
                   | Some col => Ok col st
                   | None => Raise KeyError st
                   end);
  logger (Summary (Pd.value_counts col)) ;;
  ret output_file.

(** The steps of [main] that come before the export. *)
Definition extract (sitemap_url : string) : M (list categorized_record) :=
  init ;;
  do sitemap_content <- fetch_sitemap sitemap_url;
  parse_sitemap sitemap_content ;;
  categorize_urls.

(** [main()] for the parsed arguments: the exit status and the state
    the run leaves. *)
Definition main (sitemap_url : string) (output : option string)
    (st : state) : nat * state :=
  match (init ;;
         do sitemap_content <- fetch_sitemap sitemap_url;
         parse_sitemap sitemap_content ;;
         do categorized_urls <- categorize_urls;
         do output_file <- export_to_excel categorized_urls output;
         ret output_file) st with
  | Ok _ st' => (0, st')
  | Raise e st' => (1, add_log (ProcessingError e) st')
  end.

End SitemapParser.

(** ** The traversal in the words of the specification *)

Section Traversal.
Context `{Platform Net}.
Local Abbreviation state := (state Net).
Local Abbreviation result := (result Net).
Local Abbreviation M := (M Net).

(** The record of a [<url>] entry: present when its [<loc>] child
    exists and has non-empty text; the [lastmod] is the text of the
    [<lastmod>] child, absent when there is no such child. *)
Definition url_entry (u : ET.Element) : option url_record :=
  loc ← ET.find u "sm" "loc" namespaces;
  s ← ET.text loc;
  if bool_decide (s = "") then None
  else Some {| url := s; lastmod := ET.find u "sm" "lastmod" namespaces ≫= ET.text |}.

(** The records of the [<url>] entries of a document, in document
    order. *)
Definition records_of (root : ET.Element) : list url_record :=
  omap url_entry (ET.findall root "sm" "url" namespaces).

(** The URLs the log says were requested, in order. *)
Definition fetched (l : list log_event) : list string :=
  omap (λ ev, match ev with Fetching u => Some u | _ => None end) l.

(** [Visits k n entries urls recs n']: starting with the network in
    state [n], the [<sitemap>] entries are visited one after the other
    in document order; each one is fetched once and its document is
    traversed completely (its own references first, [k] levels deep at
    most, then its [<url>] entries) before the next entry.  [urls] are
    the requests made, [recs] the records gathered, [n'] the network
    afterwards. *)
Inductive Visits : nat → Net → list ET.Element → list string →
                   list url_record → Net → Prop :=
| Visits_nil k n : Visits k n [] [] [] n
| Visits_cons k n e es loc body sub n1 f1 r1 n2 f2 r2 n3 :
    ET.find e "sm" "loc" namespaces = Some loc →
    requests_get n (py_str (ET.text loc)) = (Some body, n1) →
    fromstring body = Some sub →
    Visits k n1 (ET.findall sub "sm" "sitemap" namespaces) f1 r1 n2 →
    Visits (S k) n2 es f2 r2 n3 →
    Visits (S k) n (e :: es)
           (py_str (ET.text loc) :: f1 ++ f2)
           ((r1 ++ records_of sub) ++ r2) n3.

(** What [parse_sitemap] does once the document is parsed. *)
Definition parse_root (depth' : nat) (root : ET.Element) : M unit :=
  (if bool_decide (ET.findall root "sm" "sitemap" namespaces = []) then ret ()
   else
     logger IndexFound ;;
     for_each (visit_sitemap (parse_sitemap_depth depth'))
              (ET.findall root "sm" "sitemap" namespaces)) ;;
  for_each visit_url (ET.findall root "sm" "url" namespaces) ;;
  λ st, logger (FoundTotal (length (urls st))) st.

(** The state a computation leaves, however it ends. *)
Definition state_of {A} (r : result A) : state :=
  match r with
  | Ok _ st => st
  | Raise _ st => st
  end.

Definition keeps_files {A} (m : M A) : Prop :=
  ∀ st, files (state_of (m st)) = files st.

(** A tag in the sitemap namespace. *)
Definition in_sitemap_ns (t : string) : bool :=
  String.prefix ("{" +:+ sitemap_ns +:+ "}") t.

End Traversal.

(** ** The categorization rules in the words of the specification *)

(** A path segment: one or more characters other than the slash. *)
Definition segment (seg : chars) : Prop := seg ≠ [] ∧ slash ∉ seg.

(** An optional character: absent, or present once. *)
Definition optional (c : ascii) (o : chars) : Prop := o = [] ∨ o = [c].

(** [path] ends with [/stem] or [/stems], followed by [n] segments, each
    after a slash, and an optional closing slash.  This is the rule
    [/stem(s)?/<segment>.../?$]; as [$] stands in a Python pattern, one
    newline may still follow. *)
Definition rule_matches (stem : string) (n : nat) (path : string) : Prop :=
  ∃ pre plural segs trail eol,
    «path» = pre ++ slash :: «stem» ++ plural ++
             concat ((λ seg, slash :: seg) <$> segs) ++ trail ++ eol ∧
    optional "s" plural ∧ length segs = n ∧ Forall segment segs ∧
    optional slash trail ∧ optional newline eol.

(** The compiled form of such a rule. *)
Definition rule_regex (stem : string) (n : nat) : Re.regex :=
  (Re.One ∘ Re.Lit <$> slash :: «stem») ++
  Re.Opt (Re.Lit "s") ::
  concat (replicate n [Re.One (Re.Lit slash); Re.Plus (Re.NotIn [slash])]) ++
  [Re.Opt (Re.Lit slash); Re.Dollar].

(** ** URLs put together from their components *)

(** [scheme://host/path?query#fragment]. *)
Definition assemble (sch host path qry frag : string) : string :=
  sch +:+ "://" +:+ host +:+ path +:+ "?" +:+ qry +:+ "#" +:+ frag.

Definition free_of (bad : chars) (s : string) : bool :=
  forallb (λ c, bool_decide (c ∉ bad ++ UrlLib.unsafe_url_bytes)) «s».

(** The components are plain: a scheme of scheme characters that starts
    with a letter, an ASCII host without delimiters or brackets, a path
    that starts with a slash and has no parameters, and no component
    holds a delimiter that would end it early, or a tab, carriage return
    or newline. *)
Definition plain_components (sch host path qry frag : string) : bool :=
  match «sch» with
  | c :: _ => UrlLib.isascii c && UrlLib.isalpha c
  | [] => false
  end
  && forallb UrlLib.scheme_char «sch»
  && forallb UrlLib.isascii «host» && free_of «"/?#[]"» host
  && match «path» with
     | c :: _ => bool_decide (c = slash)
     | [] => false
     end
  && free_of «"?#;"» path && free_of «"#"» qry && free_of [] frag.

(** The same, for a path that may hold parameters: [;] is allowed in
    it. *)
Definition sound_components (sch host path qry frag : string) : bool :=
  match «sch» with
  | c :: _ => UrlLib.isascii c && UrlLib.isalpha c
  | [] => false
  end
  && forallb UrlLib.scheme_char «sch»
  && forallb UrlLib.isascii «host» && free_of «"/?#[]"» host
  && match «path» with
     | c :: _ => bool_decide (c = slash)
     | [] => false
     end
  && free_of «"?#"» path && free_of «"#"» qry && free_of [] frag.

(** A scheme for which [urlparse] splits the parameters off the path:
    its lower-case form is listed in [uses_params]. *)
Definition takes_params (sch : string) : bool :=
  bool_decide (string_of_list_ascii (UrlLib.lower <$> «sch») ∈ UrlLib.uses_params).

(** The path that [urlparse] reports for a URL with the scheme [sch] and
    the text [pth] between authority and query: with a scheme that takes
    parameters, the parameters of the last segment are cut off. *)
Definition reported_path (sch pth : string) : string :=
  if takes_params sch && bool_decide (";"%char ∈ «pth»)
  then string_of_list_ascii (UrlLib.splitparams «pth»).1
  else pth.

(** The four categories. *)
Definition categories : list string := ["page"; "product"; "collection"; "blog"].

(** ** A small site, to run the program on *)

Module Site.

Definition sm (local : string) : string := "{" +:+ sitemap_ns +:+ "}" +:+ local.

Definition loc (u : string) : ET.Element := ET.Elem (sm "loc") (Some u) [].

Definition urlset (us : list string) : ET.Element :=
  ET.Elem (sm "urlset") None ((λ u, ET.Elem (sm "url") None [loc u]) <$> us).

Definition sitemapindex (us : list string) : ET.Element :=
  ET.Elem (sm "sitemapindex") None
          ((λ u, ET.Elem (sm "sitemap") None [loc u]) <$> us).

(** The text of these documents. *)
Definition xmlns : string := " xmlns='" +:+ sitemap_ns +:+ "'".

Definition concat_strings (l : list string) : string := foldr String.append "" l.

Definition urlset_xml (us : list string) : string :=
  "<urlset" +:+ xmlns +:+ ">" +:+
  concat_strings ((λ u, "<url><loc>" +:+ u +:+ "</loc></url>") <$> us) +:+
  "</urlset>".

Definition sitemapindex_xml (us : list string) : string :=
  "<sitemapindex" +:+ xmlns +:+ ">" +:+
  concat_strings ((λ u, "<sitemap><loc>" +:+ u +:+ "</loc></sitemap>") <$> us) +:+
  "</sitemapindex>".

Definition a_url : string := "https://example.com/a.xml".
Definition b_url : string := "https://example.com/b.xml".
Definition broken_url : string := "https://example.com/broken.xml".

(** An index of two sitemaps, each with one URL. *)
Definition index_xml : string := sitemapindex_xml [a_url; b_url].
Definition a_xml : string := urlset_xml ["https://example.com/products/widget/"].
Definition b_xml : string := urlset_xml ["https://example.com/blogs/news/my-post/"].

(** An index that lists the same sitemap twice. *)
Definition index_twice_xml : string := sitemapindex_xml [a_url; a_url].

(** A sitemap without URLs, and content that is not well-formed. *)
Definition empty_xml : string := urlset_xml [].
Definition bad_xml : string := "<urlset><url>".

(** Two indexes whose second entry has no [<loc>]; the first entry of
    the first one cannot be fetched. *)
Definition index_broken_xml : string :=
  "<sitemapindex" +:+ xmlns +:+ "><sitemap><loc>" +:+ broken_url +:+
  "</loc></sitemap><sitemap/></sitemapindex>".
Definition index_broken : ET.Element :=
  ET.Elem (sm "sitemapindex") None
          [ET.Elem (sm "sitemap") None [loc broken_url];
           ET.Elem (sm "sitemap") None []].

Definition index_noloc_xml : string :=
  "<sitemapindex" +:+ xmlns +:+ "><sitemap><loc>" +:+ a_url +:+
  "</loc></sitemap><sitemap/></sitemapindex>".
Definition index_noloc : ET.Element :=
  ET.Elem (sm "sitemapindex") None
          [ET.Elem (sm "sitemap") None [loc a_url];
           ET.Elem (sm "sitemap") None []].

(** A document in another namespace. *)
Definition foreign_xml : string :=
  "<urlset xmlns='urn:other'><url><loc>https://example.com/about/</loc></url></urlset>".
Definition foreign : ET.Element :=
  ET.Elem "{urn:other}urlset" None
          [ET.Elem "{urn:other}url" None
                   [ET.Elem "{urn:other}loc" (Some "https://example.com/about/") []]].

(** The well-formed documents of the site, by their text. *)
Definition documents : list (string * ET.Element) :=
  [ (index_xml, sitemapindex [a_url; b_url]);
    (index_twice_xml, sitemapindex [a_url; a_url]);
    (a_xml, urlset ["https://example.com/products/widget/"]);
    (b_xml, urlset ["https://example.com/blogs/news/my-post/"]);
    (empty_xml, urlset []);
    (index_broken_xml, index_broken);
    (index_noloc_xml, index_noloc);
    (foreign_xml, foreign) ].

(** What the server answers; [broken_url] is not served. *)
Definition pages : list (string * string) :=
  [ ("https://example.com/sitemap.xml", index_xml);
    (a_url, a_xml);
    (b_url, b_xml);
    ("https://example.com/empty.xml", empty_xml);
    ("https://example.com/bad.xml", bad_xml) ].

Definition lookup {A} (k : string) (l : list (string * A)) : option A :=
  snd <$> head (filter (λ kv : string * A, kv.1 = k) l).

Definition checks : UrlLib.NetlocChecks :=
  {| UrlLib.check_bracketed_netloc := λ _, true;
     UrlLib.nfkc_netloc_ok := λ _, true |}.

Definition platform : Platform unit :=
  {| requests_get := λ n u, (lookup u pages, n);
     fromstring := λ s, lookup s documents;
     to_excel_ok := λ _ _, true;
     strftime_now := λ _, "20240101_120000";
     recursion_limit := 100;
     netloc_checks := checks |}.

Definition start : state unit := @Build_state unit [] () ∅ [].

End Site.

(** ** Growth of the state *)

(** [st'] comes after [st] in a run that only accumulates: the records
    and the log of [st] are kept in front, and no file has changed. *)
Definition extends {Net} (st st' : state Net) : Prop :=
  urls st `prefix_of` urls st' ∧ log st `prefix_of` log st' ∧
  files st' = files st.

Definition grows {Net A} (m : M Net A) : Prop :=
  ∀ st, extends st (state_of (m st)).

(** The rows the exporter writes for a list of categorized records. *)
Definition sheet_rows (cs : list categorized_record) : list (list (option string)) :=
  (λ c, [Some (c_url c); Some (c_category c); c_lastmod c]) <$> cs.

(** ** A site with faults *)

Module Faulty.

Definition self_url : string := "https://example.com/self.xml".

(** An index that lists itself. *)
Definition self_xml : string := Site.sitemapindex_xml [self_url].

(** An index whose second sitemap is not well-formed, and one whose
    second sitemap is not served. *)
Definition bad_url : string := "https://example.com/bad.xml".
Definition index_bad_xml : string := Site.sitemapindex_xml [Site.a_url; bad_url].
Definition index_gone_xml : string :=
  Site.sitemapindex_xml [Site.a_url; Site.broken_url].

Definition documents : list (string * ET.Element) :=
  Site.documents ++
  [ (self_xml, Site.sitemapindex [self_url]);
    (index_bad_xml, Site.sitemapindex [Site.a_url; bad_url]);
    (index_gone_xml, Site.sitemapindex [Site.a_url; Site.broken_url]) ].

Definition pages : list (string * string) :=
  Site.pages ++ [ (self_url, self_xml) ].

Definition platform : Platform unit :=
  {| requests_get := λ n u, (Site.lookup u pages, n);
     fromstring := λ s, Site.lookup s documents;
     to_excel_ok := λ _ _, true;
     strftime_now := λ _, "20240101_120000";
     recursion_limit := 100;
     netloc_checks := Site.checks |}.

End Faulty.

(** * Properties *)

(** ** The matcher against the meaning of patterns *)

Section ReFacts.
Import Re.

Lemma match_plus_spec a k s :
  match_plus a k s = true ↔
  ∃ seg t, s = seg ++ t ∧ seg ≠ [] ∧
           Forall (λ c, atom_ok a c = true) seg ∧ k t = true.
Proof.
  induction s as [|c s IH]; simpl.
  - split; [done|]. intros (seg & t & Hs & Hne & _).
    by destruct seg.
  - rewrite andb_true_iff, orb_true_iff, IH. split.
    + intros [Hc [Hk | (seg & t & -> & Hne & Hall & Hk)]].
      * exists [c], s. by repeat split; [|constructor|].
      * exists (c :: seg), t. by repeat split; [|constructor|].
    + intros (seg & t & Hs & Hne & Hall & Hk).
      destruct seg as [|c' seg]; [done|]. simplify_eq/=.
      apply Forall_cons in Hall as [Hc Hall]. split; [done|].
      destruct seg as [|c'' seg]; [by left|].
      right. by exists (c'' :: seg), t.
Qed.

Lemma at_end_spec s : at_end s = true ↔ s = [] ∨ s = [newline].
Proof.
  destruct s as [|c [|d s]]; simpl.
  - naive_solver.
  - rewrite bool_decide_eq_true. naive_solver.
  - naive_solver.
Qed.

Lemma match_here_spec re s :
  match_here re s = true ↔ ∃ m rest, s = m ++ rest ∧ denote re m rest.
Proof.
  revert s. induction re as [|[a|a|a|] re IH]; intros s; simpl.
  - split; [|done]. intros _. by exists [], s.
  - split.
    + destruct s as [|c t]; [done|].
      rewrite andb_true_iff, IH. intros [Hc (m & rest & -> & Hd)].
      exists (c :: m), rest. split; [done|]. by exists c, m.
    + intros (m & rest & -> & c & m' & -> & Hc & Hd). simpl.
      rewrite andb_true_iff, IH. split; [done|]. by exists m', rest.
  - rewrite orb_true_iff. split.
    + intros [Ht | Hs].
      * destruct s as [|c t]; [done|].
        apply andb_true_iff in Ht as [Hc Ht].
        apply IH in Ht as (m & rest & -> & Hd).
        exists (c :: m), rest. split; [done|]. right. by exists c, m.
      * apply IH in Hs as (m & rest & -> & Hd).
        exists m, rest. split; [done|]. by left.
    + intros (m & rest & -> & [Hd | (c & m' & -> & Hc & Hd)]).
      * right. apply IH. by exists m, rest.
      * left. simpl. rewrite andb_true_iff, IH. split; [done|].
        by exists m', rest.
  - rewrite match_plus_spec. split.
    + intros (seg & t & -> & Hne & Hall & Hk).
      apply IH in Hk as (m & rest & -> & Hd).
      exists (seg ++ m), rest. rewrite (assoc_L (++)). split; [done|].
      by exists seg, m.
    + intros (m & rest & -> & seg & m' & -> & Hne & Hall & Hd).
      exists seg, (m' ++ rest). rewrite (assoc_L (++)).
      repeat split; [done..|]. apply IH. by exists m', rest.
  - rewrite andb_true_iff, at_end_spec, IH. split.
    + intros [He (m & rest & -> & Hd)]. by exists m, rest.
    + intros (m & rest & -> & He & Hd). split; [done|]. by exists m, rest.
Qed.

(** [search_chars] succeeds exactly when the pattern consumes some
    factor [m] of the subject. *)
Lemma search_chars_spec re s :
  search_chars re s = true ↔
  ∃ pre m rest, s = pre ++ m ++ rest ∧ denote re m rest.
Proof.
  induction s as [|c s IH]; simpl; rewrite orb_true_iff, match_here_spec.
  - split.
    + intros [(m & rest & Hs & Hd) | ?]; [|done]. by exists [], m, rest.
    + intros (pre & m & rest & Hs & Hd). left.
      destruct pre; [|done]. by exists m, rest.
  - rewrite IH. split.
    + intros [(m & rest & Hs & Hd) | (pre & m & rest & -> & Hd)].
      * by exists [], m, rest.
      * by exists (c :: pre), m, rest.
    + intros (pre & m & rest & Hs & Hd).
      destruct pre as [|c' pre]; simplify_eq/=.
      * left. by exists m, rest.
      * right. by exists pre, m, rest.
Qed.


End ReFacts.

Section RuleFacts.
Import Re.

Lemma denote_lits w re m rest :
  denote ((One ∘ Lit <$> w) ++ re) m rest ↔
  ∃ m', m = w ++ m' ∧ denote re m' rest.
Proof.
  revert m. induction w as [|c w IH]; intros m; simpl.
  - naive_solver.
  - split.
    + intros (c' & m' & -> & Hc & Hd). apply bool_decide_eq_true in Hc as ->.
      apply IH in Hd as (m'' & -> & Hd). by exists m''.
    + intros (m' & -> & Hd). exists c, (w ++ m').
      rewrite bool_decide_eq_true, IH. naive_solver.
Qed.

Lemma denote_opt_lit c re m rest :
  denote (Opt (Lit c) :: re) m rest ↔
  ∃ o m', m = o ++ m' ∧ optional c o ∧ denote re m' rest.
Proof.
  simpl. split.
  - intros [Hd | (c' & m' & -> & Hc & Hd)].
    + exists [], m. by repeat split; [left|].
    + apply bool_decide_eq_true in Hc as ->.
      exists [c], m'. by repeat split; [right|].
  - intros (o & m' & -> & [-> | ->] & Hd); [by left|].
    right. exists c, m'. by rewrite bool_decide_eq_true.
Qed.

Lemma denote_segment re m rest :
  denote (One (Lit slash) :: Plus (NotIn [slash]) :: re) m rest ↔
  ∃ seg m', m = slash :: seg ++ m' ∧ segment seg ∧ denote re m' rest.
Proof.
  assert (Hseg : ∀ seg, Forall (λ c, atom_ok (NotIn [slash]) c = true) seg ↔
                        slash ∉ seg).
  { intros seg. rewrite Forall_forall. simpl. split.
    - intros Hall Hin. specialize (Hall _ Hin).
      apply bool_decide_eq_true in Hall. set_solver.
    - intros Hnin c Hin. apply bool_decide_eq_true. set_solver. }
  simpl. split.
  - intros (c & m1 & -> & Hc & seg & m' & -> & Hne & Hall & Hd).
    apply bool_decide_eq_true in Hc as ->.
    exists seg, m'. unfold segment. by rewrite <- Hseg.
  - intros (seg & m' & -> & [Hne Hnin] & Hd).
    exists slash, (seg ++ m'). rewrite bool_decide_eq_true.
    repeat split; [done..|]. exists seg, m'. by rewrite Hseg.
Qed.

Lemma denote_segments n re m rest :
  denote (concat (replicate n [One (Lit slash); Plus (NotIn [slash])]) ++ re)
         m rest ↔
  ∃ segs m', m = concat ((λ seg, slash :: seg) <$> segs) ++ m' ∧
             length segs = n ∧ Forall segment segs ∧ denote re m' rest.
Proof.
  revert m. induction n as [|n IH]; intros m.
  - simpl. split.
    + intros Hd. by exists [], m.
    + intros (segs & m' & -> & Hlen & _ & Hd).
      by apply nil_length_inv in Hlen as ->.
  - change (concat (replicate (S n) ?x) ++ re)
      with (One (Lit slash) :: Plus (NotIn [slash]) ::
            (concat (replicate n x) ++ re)).
    rewrite denote_segment. split.
    + intros (seg & m1 & -> & Hseg & Hd).
      apply IH in Hd as (segs & m' & -> & Hlen & Hall & Hd).
      exists (seg :: segs), m'. simpl. rewrite <- (assoc_L (++)).
      split_and!; [done|by rewrite Hlen|by constructor|done].
    + intros (segs & m' & -> & Hlen & Hall & Hd).
      destruct segs as [|seg segs]; simplify_eq/=.
      apply Forall_cons in Hall as [Hseg Hall].
      exists seg, (concat ((λ seg, slash :: seg) <$> segs) ++ m').
      rewrite <- (assoc_L (++)). split_and!; [done..|].
      apply IH. by exists segs, m'.
Qed.

Lemma denote_tail m rest :
  denote [Opt (Lit slash); Dollar] m rest ↔
  optional slash m ∧ optional newline rest.
Proof.
  rewrite denote_opt_lit. simpl. unfold optional. split.
  - intros (o & m' & -> & Ho & Heol & ->). rewrite (right_id_L [] (++)).
    by simpl in Heol.
  - intros [Hm Heol]. exists m, []. by rewrite (right_id_L [] (++)).
Qed.

Lemma denote_rule stem n m rest :
  denote (rule_regex stem n) m rest ↔
  ∃ plural segs trail,
    m = slash :: «stem» ++ plural ++
        concat ((λ seg, slash :: seg) <$> segs) ++ trail ∧
    optional "s" plural ∧ length segs = n ∧ Forall segment segs ∧
    optional slash trail ∧ optional newline rest.
Proof.
  unfold rule_regex. rewrite denote_lits. split.
  - intros (m1 & -> & Hd).
    apply denote_opt_lit in Hd as (plural & m2 & -> & Hpl & Hd).
    apply denote_segments in Hd as (segs & m3 & -> & Hlen & Hall & Hd).
    apply denote_tail in Hd as [Htr Heol].
    by exists plural, segs, m3.
  - intros (plural & segs & trail & -> & Hpl & Hlen & Hall & Htr & Heol).
    eexists. split; [done|].
    apply denote_opt_lit. eexists _, _. split_and!; [done..|].
    apply denote_segments. eexists _, _. split_and!; [done..|].
    by apply denote_tail.
Qed.

Lemma search_rule stem n path :
  search_chars (rule_regex stem n) «path» = true ↔ rule_matches stem n path.
Proof.
  rewrite search_chars_spec. unfold rule_matches. split.
  - intros (pre & m & rest & -> & Hd).
    apply denote_rule in Hd
      as (plural & segs & trail & -> & Hpl & Hlen & Hall & Htr & Heol).
    exists pre, plural, segs, trail, rest. split_and!; [|done..].
    simpl. by rewrite <- !(assoc_L (++)).
  - intros (pre & plural & segs & trail & eol & -> & Hpl & Hlen & Hall & Htr & Heol).
    exists pre, (slash :: «stem» ++ plural ++
                 concat ((λ seg, slash :: seg) <$> segs) ++ trail), eol.
    split; [simpl; by rewrite <- !(assoc_L (++))|].
    apply denote_rule. by exists plural, segs, trail.
Qed.

Lemma compile_product_pattern :
  compile product_pattern = Some (rule_regex "product" 1).
Proof. reflexivity. Qed.

Lemma compile_collection_pattern :
  compile collection_pattern = Some (rule_regex "collection" 1).
Proof. reflexivity. Qed.

Lemma compile_blog_pattern :
  compile blog_pattern = Some (rule_regex "blog" 2).
Proof. reflexivity. Qed.

Lemma search_product path :
  search product_pattern path = true ↔ rule_matches "product" 1 path.
Proof. unfold search. rewrite compile_product_pattern. apply search_rule. Qed.

Lemma search_collection path :
  search collection_pattern path = true ↔ rule_matches "collection" 1 path.
Proof. unfold search. rewrite compile_collection_pattern. apply search_rule. Qed.

Lemma search_blog path :
  search blog_pattern path = true ↔ rule_matches "blog" 2 path.
Proof. unfold search. rewrite compile_blog_pattern. apply search_rule. Qed.

End RuleFacts.

(** ** Categorization *)

Section CategorizeFacts.
Context `{Platform Net}.
Local Abbreviation state := (state Net).
Local Abbreviation result := (result Net).
Local Abbreviation M := (M Net).

Lemma category_of_path_rules path :
  (rule_matches "product" 1 path → category_of_path path = "product") ∧
  (¬ rule_matches "product" 1 path → rule_matches "collection" 1 path →
   category_of_path path = "collection") ∧
  (¬ rule_matches "product" 1 path → ¬ rule_matches "collection" 1 path →
   rule_matches "blog" 2 path → category_of_path path = "blog") ∧
  (¬ rule_matches "product" 1 path → ¬ rule_matches "collection" 1 path →
   ¬ rule_matches "blog" 2 path → category_of_path path = "page").
Proof.
  rewrite <- search_product, <- search_collection, <- search_blog.
  unfold category_of_path.
  destruct (Re.search product_pattern path),
    (Re.search collection_pattern path), (Re.search blog_pattern path);
    naive_solver.
Qed.

Lemma category_of_path_enum path : category_of_path path ∈ categories.
Proof.
  unfold category_of_path, categories.
  repeat case_match; set_solver.
Qed.

Lemma categorize_url_path url_data :
  categorize_url url_data =
  (λ path, {| c_url := url url_data; c_category := category_of_path path;
              c_lastmod := lastmod url_data |})
    <$> UrlLib.urlparse_path (url url_data).
Proof. unfold categorize_url. by destruct (UrlLib.urlparse_path _). Qed.

Lemma categorize_urls_pure (st : state) :
  (∃ cs, categorize_urls st = Ok cs st) ∨ categorize_urls st = Raise ValueError st.
Proof.
  unfold categorize_urls. destruct (mapM _ _); [left; by eexists|by right].
Qed.

End CategorizeFacts.

(** ** [urlparse] *)

Section UrlFacts.
Import UrlLib.
Context `{NetlocChecks}.


Lemma partition_app c a b : c ∉ a → partition c (a ++ c :: b) = Some (a, b).
Proof.
  induction a as [|x a IH]; simpl; intros Hnin.
  - by rewrite bool_decide_true.
  - rewrite bool_decide_false by set_solver.
    rewrite IH by set_solver. done.
Qed.

Lemma partition_None c s : c ∉ s → partition c s = None.
Proof.
  induction s as [|x s IH]; simpl; intros Hnin; [done|].
  rewrite bool_decide_false by set_solver.
  rewrite IH by set_solver. done.
Qed.


Lemma cut_app c a b : c ∉ a → cut c (a ++ c :: b) = (a, b).
Proof. intros Hnin. unfold cut. by rewrite partition_app. Qed.


Lemma rsplit_at_None c s : c ∉ s → rsplit_at c s = None.
Proof.
  induction s as [|x s IH]; simpl; intros Hnin; [done|].
  rewrite IH by set_solver. by rewrite bool_decide_false by set_solver.
Qed.


Lemma splitnetloc_host a d b :
  Forall (λ c, c ∉ «"/?#"») a → d ∈ «"/?#"» →
  splitnetloc (a ++ d :: b) = (a, d :: b).
Proof.
  intros Ha Hd. induction Ha as [|c a Hc Ha IH]; simpl.
  - by rewrite bool_decide_true.
  - rewrite bool_decide_false by done. by rewrite IH.
Qed.


Lemma lstrip_subseteq p s : lstrip p s ⊆ s.
Proof.
  induction s as [|c s IH]; simpl; [done|].
  destruct (p c); set_solver.
Qed.






Lemma chars_app (a b : string) : «a +:+ b» = «a» ++ «b».
Proof. induction a as [|c a IH]; simpl; [done|]. by rewrite IH. Qed.

Lemma filter_all {A} (P : A → Prop) `{!∀ x, Decision (P x)} (l : list A) :
  Forall P l → filter P l = l.
Proof.
  induction 1 as [|x l Hx Hl IH]; [done|].
  by rewrite filter_cons_True, IH.
Qed.

Lemma free_of_spec bad s c :
  free_of bad s = true → c ∈ bad ++ unsafe_url_bytes → c ∉ «s».
Proof.
  unfold free_of. rewrite forallb_forall. intros Hall Hc Hin.
  apply list_elem_of_In, Hall, bool_decide_eq_true in Hin. done.
Qed.

Lemma free_of_safe bad s :
  free_of bad s = true → Forall (λ c, c ∉ unsafe_url_bytes) «s».
Proof.
  intros Hfree. apply Forall_forall. intros c Hin Hc.
  eapply free_of_spec; [done| |done]. set_solver.
Qed.

Lemma scheme_char_plain c :
  scheme_char c = true →
  (c ∉ unsafe_url_bytes) ∧ c ≠ ":"%char.
Proof.
  intros Hc. split.
  - unfold unsafe_url_bytes. rewrite !not_elem_of_cons.
    split_and!; [by intros ->..|set_solver].
  - by intros ->.
Qed.

Lemma isalpha_not_space c : isalpha c = true → c0_control_or_space c = false.
Proof.
  unfold isalpha, isupper, islower, c0_control_or_space.
  rewrite orb_true_iff, !andb_true_iff, !N.leb_le, N.leb_gt. lia.
Qed.

(** For a URL put together from its components, [urlparse] reports the
    path with the parameters cut off when the scheme takes them, and the
    path as it is otherwise; host, query and fragment play no part. *)
Lemma urlparse_path_assemble_params sch host pth qry frag :
  sound_components sch host pth qry frag = true →
  urlparse_path (assemble sch host pth qry frag) = Some (reported_path sch pth).
Proof.
  unfold sound_components. rewrite !andb_true_iff.
  intros [[[[[[[Hc Hsch] Hascii] Hhost] Hsl] Hpth] Hqry] Hfrag].
  unfold reported_path, takes_params.
  unfold urlparse_path, assemble. rewrite !chars_app.
  destruct «sch» as [|c S] eqn:HS; [done|].
  apply andb_true_iff in Hc as [Hc1 Hc2].
  destruct «pth» as [|d P] eqn:HP; [done|].
  apply bool_decide_eq_true in Hsl as ->.
  rewrite forallb_forall in Hsch.
  assert (Forall (λ x, (x ∉ unsafe_url_bytes) ∧ x ≠ ":"%char) (c :: S)) as HSp.
  { apply Forall_forall. intros x Hx.
    apply scheme_char_plain, Hsch, list_elem_of_In, Hx. }
  assert (∀ x, x ∈ «"/?#[]"» → x ∉ «host») as Hh.
  { intros x Hx. eapply free_of_spec; [done|set_solver]. }
  assert (∀ x, x ∈ «"?#"» → x ∉ slash :: P) as Hp.
  { intros x Hx. rewrite <- HP. eapply free_of_spec; [done|set_solver]. }
  assert ("#"%char ∉ «qry») as Hq.
  { eapply free_of_spec; [done|set_solver]. }
  apply free_of_safe in Hhost, Hpth, Hqry, Hfrag. rewrite HP in Hpth.
  apply Forall_cons in Hpth as [_ Hpth].
  unfold urlparse_path_chars, urlsplit. simpl lstrip.
  rewrite (isalpha_not_space c Hc2).
  rewrite filter_all; last first.
  { change (c :: S ++ ?r) with ((c :: S) ++ r).
    apply Forall_app. split.
    { eapply Forall_impl; [exact HSp|]. by intros ? [? ?]. }
    simpl. repeat first [rewrite Forall_app | rewrite Forall_cons].
    split_and!; try done; by apply (bool_decide_unpack _). }
  unfold split_scheme.
  match goal with
  | |- context [partition _ (c :: S ++ ?d :: ?r)] =>
      change (c :: S ++ d :: r) with ((c :: S) ++ d :: r)
  end.
  rewrite partition_app; last first.
  { intros Hin. eapply Forall_forall in HSp; [|done]. by destruct HSp. }
  assert (forallb scheme_char (c :: S) = true) as Hall.
  { apply forallb_forall. done. }
  rewrite Hc1, Hc2, Hall. cbn [andb].
  simpl after_slashes. simpl mbind.
  change (option_bind _ _ ?f (Some ?x)) with (f x).
  rewrite (splitnetloc_host «host» slash); [| |set_solver]; last first.
  { apply Forall_forall. intros x Hx Hd. eapply Hh; [|done]. set_solver. }
  assert (brackets_ok «host» = true) as ->.
  { unfold brackets_ok.
    rewrite !bool_decide_false; [done|apply Hh; set_solver..]. }
  change (slash :: P ++ ?r) with ((slash :: P) ++ r).
  change («"?"» ++ ?r) with ("?"%char :: r).
  change («"#"» ++ ?r) with ("#"%char :: r).
  replace ((slash :: P) ++ "?"%char :: «qry» ++ "#"%char :: «frag»)
    with (((slash :: P) ++ "?"%char :: «qry») ++ "#"%char :: «frag»)
    by (by rewrite <- (assoc_L (++))).
  cbn [mbind option_bind].
  rewrite cut_app; last first.
  { rewrite elem_of_app. intros [Hin | Hin].
    - eapply Hp; [|done]. set_solver.
    - by apply elem_of_cons in Hin as [? | ?]. }
  rewrite cut_app by (apply Hp; set_solver).
  assert (checknetloc «host» = true) as ->.
  { unfold checknetloc. rewrite Hascii. by rewrite orb_true_r. }
  cbn [mbind option_bind path scheme].
  destruct (_ && _); cbn [fmap option_fmap option_map]; [done|].
  by rewrite <- HP, string_of_list_ascii_of_string.
Qed.

Lemma free_of_weaken bad bad' s :
  bad' ⊆ bad → free_of bad s = true → free_of bad' s = true.
Proof.
  intros Hsub. unfold free_of. rewrite !forallb_forall.
  intros Hall c Hin. apply bool_decide_eq_true.
  apply Hall, bool_decide_eq_true in Hin. set_solver.
Qed.

Lemma plain_components_sound sch host pth qry frag :
  plain_components sch host pth qry frag = true →
  sound_components sch host pth qry frag = true ∧ ";"%char ∉ «pth».
Proof.
  unfold plain_components, sound_components. rewrite !andb_true_iff.
  intros [[[[[[[Hc Hsch] Hascii] Hhost] Hsl] Hpth] Hqry] Hfrag].
  split.
  - split_and!; try done.
    eapply free_of_weaken; [|exact Hpth]. set_solver.
  - eapply free_of_spec; [exact Hpth|set_solver].
Qed.

Lemma reported_path_no_params sch pth :
  ";"%char ∉ «pth» → reported_path sch pth = pth.
Proof.
  intros Hno. unfold reported_path.
  by rewrite (bool_decide_false _ Hno), andb_false_r.
Qed.

(** [urlparse] gives back the path from which a URL with plain
    components was put together. *)
Lemma urlparse_path_assemble sch host pth qry frag :
  plain_components sch host pth qry frag = true →
  urlparse_path (assemble sch host pth qry frag) = Some pth.
Proof.
  intros [Hsound Hno]%plain_components_sound.
  by rewrite urlparse_path_assemble_params, reported_path_no_params.
Qed.

End UrlFacts.

Section CategorizeMore.
Context `{Platform Net}.
Local Abbreviation state := (state Net).
Local Abbreviation result := (result Net).
Local Abbreviation M := (M Net).



Lemma category_page_default path :
  Re.search product_pattern path = false →
  Re.search collection_pattern path = false →
  Re.search blog_pattern path = false →
  category_of_path path = "page".
Proof. unfold category_of_path. by intros -> -> ->. Qed.


Lemma categorize_url_is_Some r :
  is_Some (categorize_url r) ↔ is_Some (UrlLib.urlparse_path (url r)).
Proof.
  rewrite categorize_url_path, fmap_is_Some. done.
Qed.

End CategorizeMore.

(** ** The traversal *)

Section ParseFacts.
Context `{Platform Net}.
Local Abbreviation state := (state Net).
Local Abbreviation result := (result Net).
Local Abbreviation M := (M Net).

Lemma for_each_app {A} (f : A → M unit) l1 l2 st :
  for_each f (l1 ++ l2) st =
  match for_each f l1 st with
  | Ok _ st' => for_each f l2 st'
  | Raise e st' => Raise e st'
  end.
Proof.
  revert st. induction l1 as [|x l1 IH]; intros st; simpl; [done|].
  unfold bind. destruct (f x st) as [[] st'|e st']; [apply IH|done].
Qed.

Lemma visit_url_spec u (st : state) :
  visit_url u st =
  Ok () {| urls := urls st ++ option_list (url_entry u); net := net st;
           files := files st; log := log st |}.
Proof.
  unfold visit_url, url_entry, truthy, ret, set_urls.
  destruct st as [l n fs lg]. simpl.
  destruct (ET.find u "sm" "loc" namespaces) as [loc|]; simpl;
    [|by rewrite (right_id_L [] (++))].
  destruct (ET.text loc) as [s|]; simpl; [|by rewrite (right_id_L [] (++))].
  case_bool_decide; simpl; [|done]. by rewrite (right_id_L [] (++)).
Qed.

Lemma for_each_visit_url us (st : state) :
  for_each visit_url us st =
  Ok () {| urls := urls st ++ omap url_entry us; net := net st;
           files := files st; log := log st |}.
Proof.
  revert st. induction us as [|u us IH]; intros st; simpl.
  - destruct st. unfold ret. simpl. by rewrite (right_id_L [] (++)).
  - unfold bind. rewrite visit_url_spec, IH. simpl.
    rewrite <- (assoc_L (++)). by destruct (url_entry u).
Qed.

Lemma fetch_sitemap_spec u (st : state) :
  fetch_sitemap u st =
  match requests_get (net st) u with
  | (Some body, n) =>
      Ok body {| urls := urls st; net := n; files := files st;
                 log := log st ++ [Fetching u] |}
  | (None, n) =>
      Raise RequestException
            {| urls := urls st; net := n; files := files st;
               log := (log st ++ [Fetching u]) ++ [FetchError] |}
  end.
Proof.
  unfold fetch_sitemap, except_log_raise, bind, logger. simpl.
  by destruct (requests_get (net st) u) as [[body|] n].
Qed.

Lemma visit_sitemap_no_loc parse e (st : state) :
  ET.find e "sm" "loc" namespaces = None →
  visit_sitemap parse e st = Raise AttributeError st.
Proof. unfold visit_sitemap, bind. by intros ->. Qed.

Lemma parse_sitemap_depth_root depth' content root (st : state) :
  fromstring content = Some root →
  parse_sitemap_depth (S depth') content st =
  except_log_raise ParseError XmlError (parse_root depth' root) st.
Proof.
  intros Hroot. simpl. unfold except_log_raise, parse_root, bind at 1.
  by rewrite Hroot.
Qed.

Lemma parse_sitemap_depth_malformed depth' content (st : state) :
  fromstring content = None →
  parse_sitemap_depth (S depth') content st =
  Raise ParseError (add_log XmlError st).
Proof.
  intros Hroot. simpl. unfold except_log_raise, bind. by rewrite Hroot.
Qed.

(** A document without [<sitemap>] entries: nothing is fetched, and the
    records of its [<url>] entries are appended. *)
Lemma parse_sitemap_depth_urlset depth' content root (st : state) :
  fromstring content = Some root →
  ET.findall root "sm" "sitemap" namespaces = [] →
  parse_sitemap_depth (S depth') content st =
  Ok () {| urls := urls st ++ records_of root; net := net st;
           files := files st;
           log := log st ++ [FoundTotal (length (urls st ++ records_of root))] |}.
Proof.
  intros Hroot Hnone. rewrite (parse_sitemap_depth_root _ _ root) by done.
  unfold except_log_raise, parse_root. rewrite Hnone. simpl.
  unfold bind at 1. unfold ret. unfold bind.
  by rewrite for_each_visit_url.
Qed.

Lemma fetched_app l1 l2 : fetched (l1 ++ l2) = fetched l1 ++ fetched l2.
Proof. apply omap_app. Qed.

(** The loop over the [<sitemap>] entries realises [Visits]. *)
Lemma visits_for_each k n es f r n' :
  Visits k n es f r n' →
  ∀ st : state, net st = n →
    ∃ st', for_each (visit_sitemap (parse_sitemap_depth k)) es st = Ok () st' ∧
           urls st' = urls st ++ r ∧ net st' = n' ∧ files st' = files st ∧
           fetched (log st') = fetched (log st) ++ f.
Proof.
  induction 1 as [k n|k n e es loc body sub n1 f1 r1 n2 f2 r2 n3
                    Hloc Hget Hsub Hin IHin Hrest IHrest]; intros st Hn.
  - exists st. simpl. by rewrite !(right_id_L [] (++)).
  - cbn [for_each]. unfold bind at 1. unfold visit_sitemap.
    rewrite Hloc. unfold bind at 1. unfold ret at 1. unfold bind at 1.
    rewrite fetch_sitemap_spec, Hn, Hget.
    set (st1 := {| urls := urls st; net := n1; files := files st;
                   log := log st ++ [Fetching (py_str (ET.text loc))] |}).
    rewrite (parse_sitemap_depth_root _ _ sub) by done.
    destruct (IHin (add_log IndexFound st1) eq_refl)
      as (st2 & Hloop & Hu2 & Hn2 & Hf2 & Hl2).
    assert (∃ st2',
      (if bool_decide (ET.findall sub "sm" "sitemap" namespaces = [])
       then ret ()
       else logger IndexFound ;;
            for_each (visit_sitemap (parse_sitemap_depth k))
                     (ET.findall sub "sm" "sitemap" namespaces)) st1
      = Ok () st2' ∧ urls st2' = urls st ++ r1 ∧ net st2' = n2 ∧
        files st2' = files st ∧
        fetched (log st2') = (fetched (log st) ++ [py_str (ET.text loc)]) ++ f1)
      as (st2' & Hif & Hu2' & Hn2' & Hf2' & Hl2').
    { case_bool_decide as Hempty.
      - rewrite Hempty in Hin. inversion Hin; subst.
        exists st1. unfold ret, st1. simpl.
        rewrite fetched_app, !(right_id_L [] (++)). done.
      - exists st2. unfold bind, logger. rewrite Hloop.
        split_and!; [done..|].
        rewrite Hl2. simpl. rewrite !fetched_app. simpl.
        by rewrite (right_id_L [] (++)). }
    unfold except_log_raise, parse_root. unfold bind at 1. rewrite Hif.
    unfold bind at 1. rewrite for_each_visit_url. unfold logger. simpl.
    match goal with
    | |- context [for_each _ es ?s] =>
        destruct (IHrest s) as (st3 & Hloop3 & Hu3 & Hn3 & Hf3 & Hl3); [done|]
    end.
    exists st3. split; [done|]. simpl in *.
    rewrite Hu3, Hn3, Hf3, Hl3, Hu2', Hf2', fetched_app, Hl2'. simpl.
    rewrite (right_id_L [] (++)), <- !(assoc_L (++)). done.
Qed.

Lemma visits_parse k content root f r n' (st : state) :
  fromstring content = Some root →
  Visits k (net st) (ET.findall root "sm" "sitemap" namespaces) f r n' →
  ∃ st', parse_sitemap_depth (S k) content st = Ok () st' ∧
         urls st' = urls st ++ r ++ records_of root ∧ net st' = n' ∧
         files st' = files st ∧
         fetched (log st') = fetched (log st) ++ f.
Proof.
  intros Hroot Hvis.
  rewrite (parse_sitemap_depth_root _ _ root) by done.
  unfold except_log_raise, parse_root. unfold bind at 1.
  case_bool_decide as Hempty.
  - rewrite Hempty in Hvis. inversion Hvis; subst.
    unfold ret, bind. rewrite for_each_visit_url. unfold logger. simpl.
    eexists. split; [done|]. simpl.
    rewrite fetched_app. simpl. rewrite !(right_id_L [] (++)).
    by split_and!.
  - destruct (visits_for_each _ _ _ _ _ _ Hvis (add_log IndexFound st) eq_refl)
      as (st2 & Hloop & Hu2 & Hn2 & Hf2 & Hl2).
    unfold bind at 1. unfold logger at 1. rewrite Hloop.
    unfold bind. rewrite for_each_visit_url. unfold logger. simpl.
    eexists. split; [done|]. simpl in *.
    rewrite Hu2, fetched_app, Hl2, fetched_app. simpl.
    rewrite !(right_id_L [] (++)), <- (assoc_L (++)). by split_and!.
Qed.

(** Conversely, a loop that ends normally has made a [Visits]
    traversal. *)
Lemma for_each_visits k es (st st' : state) :
  for_each (visit_sitemap (parse_sitemap_depth k)) es st = Ok () st' →
  ∃ f r, Visits k (net st) es f r (net st') ∧
         urls st' = urls st ++ r ∧
         fetched (log st') = fetched (log st) ++ f.
Proof.
  revert es st st'. induction k as [|k IHk]; intros es;
    induction es as [|e es IHes]; intros st st' Hrun.
  - injection Hrun as <-. exists [], []. rewrite !(right_id_L [] (++)).
    split_and!; [constructor|done..].
  - exfalso. cbn [for_each] in Hrun. unfold bind at 1 in Hrun.
    unfold visit_sitemap in Hrun.
    destruct (ET.find e "sm" "loc" namespaces) as [loc|]; [|done].
    unfold bind at 1, ret at 1, bind at 1 in Hrun.
    rewrite fetch_sitemap_spec in Hrun.
    by destruct (requests_get (net st) _) as [[body|] n1].
  - injection Hrun as <-. exists [], []. rewrite !(right_id_L [] (++)).
    split_and!; [constructor|done..].
  - cbn [for_each] in Hrun. unfold bind at 1 in Hrun.
    destruct (visit_sitemap _ e st) as [[] st1|ex st1] eqn:Hvisit; [|done].
    apply IHes in Hrun as (f2 & r2 & Hvis2 & Hu2 & Hl2).
    unfold visit_sitemap in Hvisit.
    destruct (ET.find e "sm" "loc" namespaces) as [loc|] eqn:Hloc; [|done].
    unfold bind at 1, ret at 1, bind at 1 in Hvisit.
    rewrite fetch_sitemap_spec in Hvisit.
    destruct (requests_get (net st) _) as [[body|] n1] eqn:Hget; [|done].
    destruct (fromstring body) as [sub|] eqn:Hsub;
      [|by rewrite parse_sitemap_depth_malformed in Hvisit].
    rewrite (parse_sitemap_depth_root _ _ sub) in Hvisit by done.
    unfold except_log_raise in Hvisit.
    destruct (parse_root k sub _) as [[] st1'|ex st1'] eqn:Hroot;
      [|by case_bool_decide]. injection Hvisit as ->.
    unfold parse_root in Hroot. unfold bind at 1 in Hroot.
    match type of Hroot with
    | match ?m ?s with _ => _ end = _ =>
        destruct (m s) as [[] st2|ex st2] eqn:Hin; [|done]
    end.
    unfold bind in Hroot. rewrite for_each_visit_url in Hroot.
    unfold logger in Hroot. injection Hroot as <-. simpl in *.
    assert (∃ f1 r1,
      Visits k n1 (ET.findall sub "sm" "sitemap" namespaces) f1 r1 (net st2) ∧
      urls st2 = urls st ++ r1 ∧
      fetched (log st2) = (fetched (log st) ++ [py_str (ET.text loc)]) ++ f1)
      as (f1 & r1 & Hvis1 & Hu1 & Hl1).
    { case_bool_decide as Hempty.
      - injection Hin as <-. rewrite Hempty. exists [], []. simpl.
        rewrite fetched_app, !(right_id_L [] (++)).
        split_and!; [constructor|done..].
      - unfold bind, logger in Hin.
        apply IHk in Hin as (f1 & r1 & Hvis1 & Hu1 & Hl1). simpl in *.
        exists f1, r1. split_and!; [done..|].
        rewrite Hl1, !fetched_app. simpl. by rewrite (right_id_L [] (++)). }
    exists (py_str (ET.text loc) :: f1 ++ f2), ((r1 ++ records_of sub) ++ r2).
    split_and!.
    + by eapply Visits_cons.
    + rewrite Hu2, Hu1. by rewrite <- !(assoc_L (++)).
    + rewrite Hl2, fetched_app. simpl. rewrite (right_id_L [] (++)), Hl1.
      by rewrite <- !(assoc_L (++)).
Qed.

Lemma parse_visits k content root (st st' : state) :
  fromstring content = Some root →
  parse_sitemap_depth (S k) content st = Ok () st' →
  ∃ f r, Visits k (net st) (ET.findall root "sm" "sitemap" namespaces) f r (net st') ∧
         urls st' = urls st ++ r ++ records_of root ∧
         fetched (log st') = fetched (log st) ++ f.
Proof.
  intros Hroot Hrun.
  rewrite (parse_sitemap_depth_root _ _ root) in Hrun by done.
  unfold except_log_raise in Hrun.
  destruct (parse_root k root st) as [[] st1|ex st1] eqn:Hpr;
    [|by case_bool_decide]. injection Hrun as ->.
  unfold parse_root in Hpr. unfold bind at 1 in Hpr.
  match type of Hpr with
  | match ?m ?s with _ => _ end = _ =>
      destruct (m s) as [[] st2|ex st2] eqn:Hin; [|done]
  end.
  unfold bind in Hpr. rewrite for_each_visit_url in Hpr.
  unfold logger in Hpr. injection Hpr as <-. simpl.
  case_bool_decide as Hempty.
  - injection Hin as <-. rewrite Hempty. exists [], [].
    rewrite fetched_app. simpl. rewrite !(right_id_L [] (++)).
    split_and!; [constructor|done..].
  - unfold bind, logger in Hin.
    apply for_each_visits in Hin as (f & r & Hvis & Hu & Hl). simpl in *.
    exists f, r. split_and!; [done| |].
    + rewrite Hu. by rewrite <- (assoc_L (++)).
    + rewrite fetched_app, Hl, fetched_app. simpl.
      by rewrite !(right_id_L [] (++)).
Qed.

(** *** An entry without [<loc>] *)

Lemma for_each_no_loc_fails parse es e (st : state) :
  e ∈ es → ET.find e "sm" "loc" namespaces = None →
  ∃ ex st', for_each (visit_sitemap parse) es st = Raise ex st'.
Proof.
  intros Hin Hloc. revert st.
  induction es as [|x es IH]; intros st; [by apply elem_of_nil in Hin|].
  simpl. unfold bind.
  destruct (visit_sitemap parse x st) as [[] st1|ex st1] eqn:Hx; [|by eauto].
  apply elem_of_cons in Hin as [-> | Hin].
  - by rewrite visit_sitemap_no_loc in Hx.
  - by apply IH.
Qed.

Lemma parse_no_loc_fails depth content root e (st : state) :
  fromstring content = Some root →
  e ∈ ET.findall root "sm" "sitemap" namespaces →
  ET.find e "sm" "loc" namespaces = None →
  ∃ ex st', parse_sitemap_depth depth content st = Raise ex st'.
Proof.
  intros Hroot Hin Hloc. destruct depth as [|depth']; [by eexists _, _|].
  rewrite (parse_sitemap_depth_root _ _ root) by done.
  unfold except_log_raise, parse_root. unfold bind at 1.
  rewrite bool_decide_false by (intros Hnil; rewrite Hnil in Hin; set_solver).
  unfold bind at 1. unfold logger at 1.
  destruct (for_each_no_loc_fails (parse_sitemap_depth depth') _ _
              (add_log IndexFound st) Hin Hloc) as (ex & st' & ->).
  case_bool_decide; by eexists _, _.
Qed.

Lemma parse_no_loc_reached depth' content root pre e post (st st1 : state) :
  fromstring content = Some root →
  ET.findall root "sm" "sitemap" namespaces = pre ++ e :: post →
  ET.find e "sm" "loc" namespaces = None →
  for_each (visit_sitemap (parse_sitemap_depth depth')) pre
           (add_log IndexFound st) = Ok () st1 →
  parse_sitemap_depth (S depth') content st = Raise AttributeError st1.
Proof.
  intros Hroot Hes Hloc Hpre.
  rewrite (parse_sitemap_depth_root _ _ root) by done.
  unfold except_log_raise, parse_root. unfold bind at 1.
  rewrite Hes. rewrite bool_decide_false by (by destruct pre).
  unfold bind at 1. unfold logger at 1.
  rewrite for_each_app, Hpre. simpl. unfold bind at 1.
  by rewrite visit_sitemap_no_loc.
Qed.

(** *** Other namespaces *)

Lemma qname_sm local :
  ET.qname namespaces "sm" local = "{" +:+ sitemap_ns +:+ "}" +:+ local.
Proof. reflexivity. Qed.

Lemma prefix_app (a b : string) : String.prefix a (a +:+ b) = true.
Proof.
  induction a as [|c a IH]; simpl; [by destruct b|].
  by destruct (ascii_dec c c).
Qed.

Lemma in_sitemap_ns_qname local :
  in_sitemap_ns (ET.qname namespaces "sm" local) = true.
Proof.
  rewrite qname_sm. unfold in_sitemap_ns.
  change ("{" +:+ sitemap_ns +:+ "}" +:+ local)
    with (("{" +:+ sitemap_ns +:+ "}") +:+ local).
  apply prefix_app.
Qed.

Lemma iter_descendants root : ET.iter root = root :: ET.descendants root.
Proof. by destruct root. Qed.

Lemma findall_foreign root local :
  Forall (λ e, in_sitemap_ns (ET.tag e) = false) (ET.iter root) →
  ET.findall root "sm" local namespaces = [].
Proof.
  rewrite iter_descendants. intros Hall%Forall_cons_1%proj2.
  unfold ET.findall. induction Hall as [|e es He Hes IH]; [done|].
  rewrite filter_cons_False; [done|].
  intros Htag. rewrite Htag, in_sitemap_ns_qname in He. done.
Qed.

(** *** Files are written by the exporter only *)

Lemma keeps_files_bind {A B} (m : M A) (k : A → M B) :
  keeps_files m → (∀ a, keeps_files (k a)) → keeps_files (bind m k).
Proof.
  intros Hm Hk st. unfold bind. specialize (Hm st).
  destruct (m st) as [a st'|e st']; simpl in *; [|done].
  by rewrite Hk.
Qed.

Lemma keeps_files_except {A} e ev (m : M A) :
  keeps_files m → keeps_files (except_log_raise e ev m).
Proof.
  intros Hm st. unfold except_log_raise. specialize (Hm st).
  destruct (m st) as [a st'|e' st']; simpl in *; [done|].
  by case_bool_decide.
Qed.

Lemma keeps_files_for_each {A} (f : A → M unit) l :
  (∀ x, keeps_files (f x)) → keeps_files (for_each f l).
Proof.
  intros Hf. induction l as [|x l IH]; simpl; [done|].
  by apply keeps_files_bind.
Qed.

Lemma keeps_files_fetch u : keeps_files (fetch_sitemap u).
Proof.
  intros st. rewrite fetch_sitemap_spec.
  by destruct (requests_get (net st) u) as [[body|] n].
Qed.

Lemma keeps_files_parse depth content :
  keeps_files (parse_sitemap_depth depth content).
Proof.
  revert content. induction depth as [|depth' IH]; intros content; [done|].
  simpl. apply keeps_files_except, keeps_files_bind.
  { intros st. by destruct (fromstring content). }
  intros root. apply keeps_files_bind.
  { case_bool_decide; [done|]. apply keeps_files_bind; [done|].
    intros _. apply keeps_files_for_each. intros e.
    unfold visit_sitemap. apply keeps_files_bind.
    { by destruct (ET.find _ _ _ _). }
    intros u. apply keeps_files_bind; [apply keeps_files_fetch|done]. }
  intros _. apply keeps_files_bind; [|done].
  intros st. by rewrite for_each_visit_url.
Qed.

Lemma keeps_files_categorize : keeps_files categorize_urls.
Proof. intros st. unfold categorize_urls. by destruct (mapM _ _). Qed.

Lemma keeps_files_init : keeps_files (init (Net:=Net)).
Proof. done. Qed.

End ParseFacts.

(** ** The exporter and [main] *)

Section ExportFacts.
Context `{Platform Net}.
Local Abbreviation state := (state Net).
Local Abbreviation result := (result Net).
Local Abbreviation M := (M Net).

Lemma union_keys_records c cs :
  Pd.union_keys (to_dict <$> c :: cs) = ["url"; "category"; "lastmod"].
Proof.
  unfold Pd.union_keys. cbn [fmap list_fmap foldl].
  change ([] ++ filter _ (remove_dups (Pd.keys (to_dict c))))
    with ["url"; "category"; "lastmod"].
  induction cs as [|c' cs IH]; [done|].
  cbn [fmap list_fmap foldl].
  change (_ ++ filter _ (remove_dups (Pd.keys (to_dict c'))))
    with ["url"; "category"; "lastmod"].
  exact IH.
Qed.

Lemma getitem_category c cs :
  Pd.getitem (Pd.from_records (to_dict <$> c :: cs)) "category" =
  Some (Some ∘ c_category <$> c :: cs).
Proof.
  unfold Pd.getitem, Pd.from_records. rewrite union_keys_records.
  cbn [Pd.columns Pd.rows]. change (list_find _ _) with (Some (1, "category")).
  cbn [fmap option_fmap option_map mbind option_bind fst]. f_equal.
  rewrite <- !list_fmap_compose. by apply list_fmap_ext.
Qed.

Lemma export_empty output (st : state) :
  export_to_excel [] output st =
  let path := output_path output (net st) in
  if to_excel_ok path (Pd.from_records [])
  then Raise KeyError
             {| urls := urls st; net := net st;
                files := <[path := Pd.from_records []]> (files st);
                log := log st ++ [Exported path] |}
  else Raise WriteError st.
Proof.
  unfold export_to_excel, bind, logger. simpl.
  by destruct (to_excel_ok _ _).
Qed.

Lemma export_nonempty c cs output (st : state) :
  let path := output_path output (net st) in
  let df := Pd.from_records (to_dict <$> c :: cs) in
  to_excel_ok path df = true →
  export_to_excel (c :: cs) output st =
  Ok path {| urls := urls st; net := net st;
             files := <[path := df]> (files st);
             log := (log st ++ [Exported path]) ++
                    [Summary (Pd.value_counts (Some ∘ c_category <$> c :: cs))] |}.
Proof.
  intros path df Hok. unfold export_to_excel, bind, logger.
  fold df. cbn [net]. fold path. rewrite Hok.
  unfold df. rewrite getitem_category. done.
Qed.

Lemma main_extract_export sitemap_url output (st : state) :
  main sitemap_url output st =
  match extract sitemap_url st with
  | Ok categorized_urls st1 =>
      match export_to_excel categorized_urls output st1 with
      | Ok _ st2 => (0, st2)
      | Raise e st2 => (1, add_log (ProcessingError e) st2)
      end
  | Raise e st1 => (1, add_log (ProcessingError e) st1)
  end.
Proof.
  unfold main, extract, bind.
  destruct (init st) as [[] s1|e s1]; [|done].
  destruct (fetch_sitemap sitemap_url s1) as [body s2|e s2]; [|done].
  destruct (parse_sitemap body s2) as [[] s3|e s3]; [|done].
  destruct (categorize_urls s3) as [cats s4|e s4]; [|done].
  unfold ret. by destruct (export_to_excel cats output s4).
Qed.

Lemma keeps_files_extract sitemap_url : keeps_files (extract sitemap_url).
Proof.
  unfold extract. apply keeps_files_bind; [apply keeps_files_init|].
  intros _. apply keeps_files_bind; [apply keeps_files_fetch|].
  intros content. apply keeps_files_bind; [apply keeps_files_parse|].
  intros _. apply keeps_files_categorize.
Qed.

Lemma length_omap_filter {A B} (f : A → option B) (l : list A) :
  length (omap f l) = length (filter (λ x, is_Some (f x)) l).
Proof.
  induction l as [|x l IH]; [done|].
  destruct (f x) as [y|] eqn:Hx.
  - rewrite filter_cons_True by (by rewrite Hx).
    simpl. rewrite Hx. simpl. f_equal. exact IH.
  - rewrite filter_cons_False by (rewrite Hx; by intros [? ?]).
    simpl. rewrite Hx. exact IH.
Qed.

Lemma url_entry_Some u r :
  url_entry u = Some r ↔
  ∃ loc s, ET.find u "sm" "loc" namespaces = Some loc ∧
           ET.text loc = Some s ∧ s ≠ "" ∧
           r = {| url := s;
                  lastmod := ET.find u "sm" "lastmod" namespaces ≫= ET.text |}.
Proof.
  unfold url_entry. split.
  - destruct (ET.find u "sm" "loc" namespaces) as [loc|]; simpl; [|done].
    destruct (ET.text loc) as [s|] eqn:Hs; simpl; [|done].
    case_bool_decide; [done|]. intros [= <-]. by exists loc, s.
  - intros (loc & s & -> & Hs & Hne & ->). simpl. rewrite Hs. simpl.
    by rewrite bool_decide_false.
Qed.

End ExportFacts.

(** * The claims *)

(** C1. The categorizer reads the path component of the URL only, and
    chooses the category by the first rule that the path matches:
    [/product(s)?/<segment>/?$] gives product, else
    [/collection(s)?/<segment>/?$] gives collection, else
    [/blog(s)?/<segment>/<segment>/?$] gives blog, else page.  The three
    scenario URLs get product, page and blog. *)
Theorem first_match_wins `{Platform Net} :
  (∀ url_data : url_record,
     c_category <$> categorize_url url_data =
     category_of_path <$> UrlLib.urlparse_path (url url_data)) ∧
  (∀ path : string,
     (rule_matches "product" 1 path → category_of_path path = "product") ∧
     (¬ rule_matches "product" 1 path → rule_matches "collection" 1 path →
      category_of_path path = "collection") ∧
     (¬ rule_matches "product" 1 path → ¬ rule_matches "collection" 1 path →
      rule_matches "blog" 2 path → category_of_path path = "blog") ∧
     (¬ rule_matches "product" 1 path → ¬ rule_matches "collection" 1 path →
      ¬ rule_matches "blog" 2 path → category_of_path path = "page")) ∧
  category_of_path "/products/widget/" = "product" ∧
  category_of_path "/about/" = "page" ∧
  category_of_path "/blogs/news/my-post/" = "blog" ∧
  (∀ lm, categorize_url {| url := "https://example.com/products/widget/"; lastmod := lm |}
         = Some {| c_url := "https://example.com/products/widget/";
                   c_category := "product"; c_lastmod := lm |}) ∧
  (∀ lm, categorize_url {| url := "https://example.com/about/"; lastmod := lm |}
         = Some {| c_url := "https://example.com/about/";
                   c_category := "page"; c_lastmod := lm |}) ∧
  (∀ lm, categorize_url {| url := "https://example.com/blogs/news/my-post/"; lastmod := lm |}
         = Some {| c_url := "https://example.com/blogs/news/my-post/";
                   c_category := "blog"; c_lastmod := lm |}).
Proof.
  split_and!.
  - intros url_data. rewrite categorize_url_path.
    by destruct (UrlLib.urlparse_path _).
  - apply category_of_path_rules.
  - reflexivity.
  - reflexivity.
  - reflexivity.
  - intros lm. vm_compute. reflexivity.
  - intros lm. vm_compute. reflexivity.
  - intros lm. vm_compute. reflexivity.
Qed.

Lemma first_match_wins_witness : category_of_path "/collections/shoes" = "collection".
Proof.
  apply (proj1 (proj2 (proj1 (proj2 (@first_match_wins unit Site.platform)) _))).
  - intros Hm%search_product. vm_compute in Hm. discriminate.
  - apply search_collection. vm_compute. reflexivity.
Defined.

(** C2. Parsing a document without [<sitemap>] entries (a [<urlset>]
    document) succeeds, fetches nothing, and appends to the accumulation
    list exactly the records of its [<url>] entries, in document order:
    one for each entry whose [<loc>] child is present with non-empty
    text, carrying that text as url and the text of [<lastmod>] (absent
    when there is no such child) as lastmod.  The other entries are
    skipped.  Starting from the empty list, the list afterwards is the
    list of these records. *)
Theorem urlset_records `{Platform Net} depth' content root (st : state Net) :
  fromstring content = Some root →
  ET.findall root "sm" "sitemap" namespaces = [] →
  ∃ st', parse_sitemap_depth (S depth') content st = Ok () st' ∧
         urls st' = urls st ++ omap url_entry (ET.findall root "sm" "url" namespaces) ∧
         (urls st = [] →
          length (urls st') =
          length (filter (λ u, is_Some (url_entry u))
                         (ET.findall root "sm" "url" namespaces))) ∧
         (∀ u r, url_entry u = Some r ↔
                 ∃ loc s, ET.find u "sm" "loc" namespaces = Some loc ∧
                          ET.text loc = Some s ∧ s ≠ "" ∧
                          r = {| url := s;
                                 lastmod := ET.find u "sm" "lastmod" namespaces
                                            ≫= ET.text |}) ∧
         net st' = net st ∧ files st' = files st ∧
         fetched (log st') = fetched (log st).
Proof.
  intros Hroot Hnone. eexists. split.
  { by apply parse_sitemap_depth_urlset. }
  simpl. split_and!; try done.
  - intros ->. simpl. apply length_omap_filter.
  - apply url_entry_Some.
  - rewrite fetched_app. simpl. by rewrite (right_id_L [] (++)).
Qed.

Lemma urlset_records_witness :
  ∃ st', @parse_sitemap_depth unit Site.platform 1 Site.a_xml
           Site.start = Ok () st' ∧
         urls st' = [{| url := "https://example.com/products/widget/";
                        lastmod := None |}].
Proof.
  destruct (@urlset_records unit Site.platform 0 Site.a_xml
              (Site.urlset ["https://example.com/products/widget/"]) Site.start)
    as (st' & Hrun & Hurls & _); [vm_compute; reflexivity..|].
  exists st'. split; [exact Hrun|]. rewrite Hurls. reflexivity.
Defined.

(** C3. Every [<sitemap>] reference of an index document is fetched and
    its document parsed, once per reference and without removing
    repeated references, in document order and depth first: when the
    entries can be visited as [Visits] describes, [parse_sitemap] makes
    exactly those requests in that order and accumulates exactly those
    records, followed by the records of the document's own [<url>]
    entries; and every run of [parse_sitemap] that ends normally is such
    a traversal.  An index of two entries that each resolve to a one-URL
    [<urlset>] accumulates the two records in the order listed; an index
    that lists the same sitemap twice fetches it twice and accumulates
    its record twice. *)
Theorem index_traversal :
  (∀ Net (P : Platform Net) k content root requests recs n' (st : state Net),
     fromstring content = Some root →
     Visits k (net st) (ET.findall root "sm" "sitemap" namespaces) requests recs n' →
     ∃ st', parse_sitemap_depth (S k) content st = Ok () st' ∧
            urls st' = urls st ++ recs ++ records_of root ∧
            net st' = n' ∧ files st' = files st ∧
            fetched (log st') = fetched (log st) ++ requests) ∧
  (∀ Net (P : Platform Net) k content root (st st' : state Net),
     fromstring content = Some root →
     parse_sitemap_depth (S k) content st = Ok () st' →
     ∃ requests recs,
       Visits k (net st) (ET.findall root "sm" "sitemap" namespaces)
              requests recs (net st') ∧
       urls st' = urls st ++ recs ++ records_of root ∧
       fetched (log st') = fetched (log st) ++ requests) ∧
  @parse_sitemap unit Site.platform Site.index_xml Site.start
  = Ok () (@Build_state unit
             [{| url := "https://example.com/products/widget/"; lastmod := None |};
              {| url := "https://example.com/blogs/news/my-post/"; lastmod := None |}]
             () ∅
             [IndexFound;
              Fetching "https://example.com/a.xml"; FoundTotal 1;
              Fetching "https://example.com/b.xml"; FoundTotal 2;
              FoundTotal 2]) ∧
  @parse_sitemap unit Site.platform Site.index_twice_xml Site.start
  = Ok () (@Build_state unit
             [{| url := "https://example.com/products/widget/"; lastmod := None |};
              {| url := "https://example.com/products/widget/"; lastmod := None |}]
             () ∅
             [IndexFound;
              Fetching "https://example.com/a.xml"; FoundTotal 1;
              Fetching "https://example.com/a.xml"; FoundTotal 2;
              FoundTotal 2]).
Proof.
  split_and!.
  - intros Net P k content root requests recs n' st Hroot Hvis.
    by eapply visits_parse.
  - intros Net P k content root st st' Hroot Hrun.
    by eapply parse_visits.
  - vm_compute. reflexivity.
  - vm_compute. reflexivity.
Qed.

Lemma index_traversal_witness :
  ∃ st', @parse_sitemap_depth unit Site.platform 2
           Site.index_xml Site.start = Ok () st' ∧
         fetched (log st') = ["https://example.com/a.xml"; "https://example.com/b.xml"] ∧
         (url <$> urls st') = ["https://example.com/products/widget/";
                               "https://example.com/blogs/news/my-post/"].
Proof.
  edestruct (proj1 index_traversal unit Site.platform 1
               Site.index_xml
               (Site.sitemapindex [Site.a_url; Site.b_url]))
    with (st := Site.start) as (st' & Hrun & Hurls & _ & _ & Hlog).
  - vm_compute. reflexivity.
  - let l := eval vm_compute in
      (ET.findall (Site.sitemapindex [Site.a_url; Site.b_url])
                  "sm" "sitemap" namespaces) in
    change (ET.findall _ "sm" "sitemap" namespaces) with l.
    eapply Visits_cons;
      [vm_compute; reflexivity | vm_compute; reflexivity
      | vm_compute; reflexivity | apply Visits_nil | ].
    eapply Visits_cons;
      [vm_compute; reflexivity | vm_compute; reflexivity
      | vm_compute; reflexivity | apply Visits_nil | apply Visits_nil].
  - exists st'. split; [exact Hrun|]. rewrite Hurls, Hlog.
    split; vm_compute; reflexivity.
Defined.

(** C4 (amended).  [categorize_urls] changes nothing in the state.  On
    every input list whose urls [urlparse] accepts it returns one
    categorized record per input record, in the same order, with the url
    and lastmod of the input record and a category among page, product,
    collection and blog, which is page when no pattern matches the path.
    When [urlparse] rejects the url of some record, it raises
    [ValueError] instead. *)
Theorem categorize_total_on_accepted `{Platform Net} (st : state Net) :
  (Forall (λ r, is_Some (UrlLib.urlparse_path (url r))) (urls st) →
   ∃ cs, categorize_urls st = Ok cs st ∧
         length cs = length (urls st) ∧
         Forall2 (λ r c,
                    c_url c = url r ∧ c_lastmod c = lastmod r ∧
                    c_category c ∈ categories ∧
                    ∃ path, UrlLib.urlparse_path (url r) = Some path ∧
                            (Re.search product_pattern path = false →
                             Re.search collection_pattern path = false →
                             Re.search blog_pattern path = false →
                             c_category c = "page"))
                 (urls st) cs) ∧
  (Exists (λ r, UrlLib.urlparse_path (url r) = None) (urls st) →
   categorize_urls st = Raise ValueError st).
Proof.
  unfold categorize_urls. split.
  - intros Hall.
    destruct (mapM categorize_url (urls st)) as [cs|] eqn:Hcs.
    + exists cs. split; [done|]. split; [symmetry; by eapply length_mapM|].
      apply mapM_Some in Hcs. eapply Forall2_impl; [exact Hcs|].
      intros r c Hc. simpl in Hc. rewrite categorize_url_path in Hc.
      destruct (UrlLib.urlparse_path (url r)) as [path|]; [|done].
      simpl in Hc. injection Hc as <-. simpl.
      split_and!; [done|done|apply category_of_path_enum|].
      exists path. split; [done|]. apply category_page_default.
    + apply mapM_None in Hcs. apply Exists_exists in Hcs as (r & Hin & Hr).
      eapply Forall_forall in Hall; [|exact Hin].
      apply categorize_url_is_Some in Hall. rewrite Hr in Hall.
      by destruct Hall.
  - intros Hex. rewrite (proj2 (mapM_None categorize_url (urls st))); [done|].
    eapply Exists_impl; [exact Hex|]. intros r Hr. simpl in Hr.
    by rewrite categorize_url_path, Hr.
Qed.

Lemma categorize_total_on_accepted_witness :
  ∃ cs, @categorize_urls unit Site.platform
          (set_urls (λ _, [{| url := "https://example.com/about/";
                               lastmod := Some "2024-01-01" |};
                            {| url := "https://example.com/products/widget/";
                               lastmod := None |}]) Site.start)
        = Ok cs (set_urls (λ _, [{| url := "https://example.com/about/";
                                     lastmod := Some "2024-01-01" |};
                                  {| url := "https://example.com/products/widget/";
                                     lastmod := None |}]) Site.start) ∧
        length cs = 2.
Proof.
  destruct (proj1 (@categorize_total_on_accepted unit Site.platform
              (set_urls (λ _, [{| url := "https://example.com/about/";
                                   lastmod := Some "2024-01-01" |};
                                {| url := "https://example.com/products/widget/";
                                   lastmod := None |}]) Site.start)))
    as (cs & Hrun & Hlen & _).
  - repeat constructor; vm_compute; eexists; reflexivity.
  - exists cs. split; [exact Hrun|exact Hlen].
Defined.

(** C4, as stated, fails: a record whose url has an opening bracket
    without the closing one in its authority makes [urlparse], and with
    it [categorize_urls], raise [ValueError]. *)
Lemma categorize_raises_on_rejected_url :
  @categorize_urls unit Site.platform
     (@Build_state unit [{| url := "http://[example.com/"; lastmod := None |}]
                   () ∅ [])
  = Raise ValueError
      (@Build_state unit [{| url := "http://[example.com/"; lastmod := None |}]
                    () ∅ []).
Proof. vm_compute. reflexivity. Qed.

(** C5 (amended).  Content that is not well-formed XML makes
    [parse_sitemap] fail with [ParseError].  When the run fails in the
    fetch, parse or categorize step, [main] returns status 1 and the
    export step is not reached: the files are those that were there
    before the run. *)
Theorem failure_before_export_writes_nothing `{Platform Net} :
  (∀ depth' content st,
     fromstring content = None →
     parse_sitemap_depth (S depth') content st =
     Raise ParseError (add_log XmlError st)) ∧
  (∀ sitemap_url output st e st1,
     extract sitemap_url st = Raise e st1 →
     main sitemap_url output st = (1, add_log (ProcessingError e) st1) ∧
     files st1 = files st).
Proof.
  split.
  - intros depth' content st Hbad. by apply parse_sitemap_depth_malformed.
  - intros sitemap_url output st e st1 Hex.
    rewrite main_extract_export, Hex. split; [done|].
    pose proof (keeps_files_extract sitemap_url st) as Hfiles.
    by rewrite Hex in Hfiles.
Qed.

Lemma failure_before_export_writes_nothing_witness :
  ∃ st', @main unit Site.platform "https://example.com/bad.xml" None Site.start =
         (1, add_log (ProcessingError ParseError) st') ∧
         files st' = ∅.
Proof.
  eexists. apply (proj2 (@failure_before_export_writes_nothing unit Site.platform)).
  vm_compute. reflexivity.
Defined.

(** C5, as stated, fails for a failure inside the export step: a run
    that gathers no URL writes the output file and then fails. *)
Lemma failed_export_leaves_file :
  let r := @main unit Site.platform "https://example.com/empty.xml" None Site.start in
  r.1 = 1 ∧
  files Site.start !! "sitemap_results_20240101_120000.xlsx" = None ∧
  files r.2 !! "sitemap_results_20240101_120000.xlsx" = Some (Pd.from_records []) ∧
  last (log r.2) = Some (ProcessingError KeyError).
Proof. vm_compute. done. Qed.



(** C7 (amended).  The category is a function of the path that
    [urlparse] reports for the URL: two records for whose urls it
    reports the same path get the same category.  For a URL put together
    from a scheme, a host, a path, a query and a fragment that path is
    the given one, with the parameters of its last segment cut off when
    the scheme takes parameters; so the category does not depend on
    host, query or fragment, and depends on the scheme only through
    whether it takes parameters, and not at all when the path holds no
    [;].  The category does not depend on the rest of the state. *)
Theorem category_depends_on_path_only `{Platform Net} :
  (∀ r1 r2 : url_record,
     UrlLib.urlparse_path (url r1) = UrlLib.urlparse_path (url r2) →
     c_category <$> categorize_url r1 = c_category <$> categorize_url r2) ∧
  (∀ sch host pth qry frag lm,
     sound_components sch host pth qry frag = true →
     c_category <$> categorize_url {| url := assemble sch host pth qry frag;
                                      lastmod := lm |} =
     Some (category_of_path (reported_path sch pth))) ∧
  (∀ sch1 host1 qry1 frag1 lm1 sch2 host2 qry2 frag2 lm2 pth,
     sound_components sch1 host1 pth qry1 frag1 = true →
     sound_components sch2 host2 pth qry2 frag2 = true →
     takes_params sch1 = takes_params sch2 ∨ ";"%char ∉ «pth» →
     c_category <$> categorize_url {| url := assemble sch1 host1 pth qry1 frag1;
                                      lastmod := lm1 |} =
     c_category <$> categorize_url {| url := assemble sch2 host2 pth qry2 frag2;
                                      lastmod := lm2 |}) ∧
  (∀ sch1 host1 qry1 frag1 lm1 sch2 host2 qry2 frag2 lm2 pth,
     plain_components sch1 host1 pth qry1 frag1 = true →
     plain_components sch2 host2 pth qry2 frag2 = true →
     c_category <$> categorize_url {| url := assemble sch1 host1 pth qry1 frag1;
                                      lastmod := lm1 |} =
     Some (category_of_path pth) ∧
     c_category <$> categorize_url {| url := assemble sch2 host2 pth qry2 frag2;
                                      lastmod := lm2 |} =
     Some (category_of_path pth)) ∧
  (∀ st1 st2 : state Net,
     urls st1 = urls st2 →
     ∀ cs, categorize_urls st1 = Ok cs st1 → categorize_urls st2 = Ok cs st2).
Proof.
  split_and!.
  - intros r1 r2 Hpath. rewrite !categorize_url_path, Hpath.
    by destruct (UrlLib.urlparse_path (url r2)).
  - intros sch host pth qry frag lm Hok.
    rewrite categorize_url_path. simpl.
    by rewrite urlparse_path_assemble_params.
  - intros sch1 host1 qry1 frag1 lm1 sch2 host2 qry2 frag2 lm2 pth H1 H2 Hsame.
    rewrite !categorize_url_path. simpl.
    rewrite !urlparse_path_assemble_params by done. simpl.
    destruct Hsame as [Hsame|Hno].
    + unfold reported_path. by rewrite Hsame.
    + by rewrite !reported_path_no_params.
  - intros sch1 host1 qry1 frag1 lm1 sch2 host2 qry2 frag2 lm2 pth H1 H2.
    rewrite !categorize_url_path. simpl.
    by rewrite !urlparse_path_assemble.
  - intros st1 st2 Hurls cs. unfold categorize_urls. rewrite Hurls.
    destruct (mapM categorize_url (urls st2)); [|done]. by intros [= ->].
Qed.

Lemma category_depends_on_path_only_witness :
  c_category <$> @categorize_url unit Site.platform
    {| url := assemble "http" "example.com" "/products/widget;v=1" "page=2" "top";
       lastmod := None |} =
  c_category <$> @categorize_url unit Site.platform
    {| url := assemble "HTTPS" "shop.example.org" "/products/widget;v=1" "" "";
       lastmod := Some "2024" |}.
Proof.
  refine (proj1 (proj2 (proj2 (@category_depends_on_path_only unit Site.platform)))
            "http" "example.com" "page=2" "top" None
            "HTTPS" "shop.example.org" "" "" (Some "2024")
            "/products/widget;v=1" _ _ _).
  - vm_compute. reflexivity.
  - vm_compute. reflexivity.
  - left. vm_compute. reflexivity.
Defined.

(** C7, as stated, fails: two URLs that differ in the scheme only can
    get different categories.  With [http], a scheme that takes
    parameters, [urlparse] cuts [;x] off the path and [/products/] is a
    page; with [ws], which takes none, the path is [/products/;x], a
    product. *)
Lemma scheme_changes_category :
  @categorize_url unit Site.platform
    {| url := "http://example.com/products/;x"; lastmod := None |} =
  Some {| c_url := "http://example.com/products/;x"; c_category := "page";
          c_lastmod := None |} ∧
  @categorize_url unit Site.platform
    {| url := "ws://example.com/products/;x"; lastmod := None |} =
  Some {| c_url := "ws://example.com/products/;x"; c_category := "product";
          c_lastmod := None |} ∧
  UrlLib.urlparse_path (H:=Site.checks) "http://example.com/products/;x" =
  Some "/products/" ∧
  UrlLib.urlparse_path (H:=Site.checks) "ws://example.com/products/;x" =
  Some "/products/;x".
Proof. vm_compute. done. Qed.

(** C8. The lookups are made in the sitemap namespace: when no element
    of a document has a tag in that namespace, parsing it succeeds,
    fetches nothing and appends no record. *)
Theorem foreign_namespace_no_records `{Platform Net} depth' content root (st : state Net) :
  fromstring content = Some root →
  Forall (λ e, in_sitemap_ns (ET.tag e) = false) (ET.iter root) →
  ET.findall root "sm" "sitemap" namespaces = [] ∧
  ET.findall root "sm" "url" namespaces = [] ∧
  parse_sitemap_depth (S depth') content st =
  Ok () {| urls := urls st; net := net st; files := files st;
           log := log st ++ [FoundTotal (length (urls st))] |}.
Proof.
  intros Hroot Hforeign.
  pose proof (findall_foreign root "sitemap" Hforeign) as Hs.
  pose proof (findall_foreign root "url" Hforeign) as Hu.
  split_and!; [done..|].
  rewrite (parse_sitemap_depth_urlset _ _ root) by done.
  unfold records_of. rewrite Hu. simpl. by rewrite (right_id_L [] (++)).
Qed.

Lemma foreign_namespace_no_records_witness :
  @parse_sitemap_depth unit Site.platform 1 Site.foreign_xml
     Site.start
  = Ok () (@Build_state unit [] () ∅ [FoundTotal 0]).
Proof.
  apply (@foreign_namespace_no_records unit Site.platform 0
           Site.foreign_xml Site.foreign Site.start).
  - vm_compute. reflexivity.
  - repeat constructor.
Defined.

(** C9 (amended).  A document with a [<sitemap>] entry that has no
    [<loc>] child is never parsed to the end: the entries before it are
    visited in order, and if they all succeed the visit of that entry
    fails with [AttributeError], which [parse_sitemap] does not handle
    (no [ParseError], no skip); it reaches the caller with the state as
    it is then.  Otherwise the error of the earlier entry reaches the
    caller. *)
Theorem sitemap_without_loc_raises `{Platform Net} depth' content root pre e post (st : state Net) :
  fromstring content = Some root →
  ET.findall root "sm" "sitemap" namespaces = pre ++ e :: post →
  ET.find e "sm" "loc" namespaces = None →
  (∃ ex st', parse_sitemap_depth (S depth') content st = Raise ex st') ∧
  (∀ st1,
     for_each (visit_sitemap (parse_sitemap_depth depth')) pre
              (add_log IndexFound st) = Ok () st1 →
     parse_sitemap_depth (S depth') content st = Raise AttributeError st1) ∧
  (pre = [] →
   parse_sitemap_depth (S depth') content st =
   Raise AttributeError (add_log IndexFound st)).
Proof.
  intros Hroot Hes Hloc. split_and!.
  - eapply parse_no_loc_fails; [done| |done]. rewrite Hes. set_solver.
  - intros st1 Hpre. by eapply parse_no_loc_reached.
  - intros ->. by eapply parse_no_loc_reached.
Qed.

Lemma sitemap_without_loc_raises_witness :
  @parse_sitemap_depth unit Site.platform 2 Site.index_noloc_xml
     Site.start
  = Raise AttributeError
      (@Build_state unit
         [{| url := "https://example.com/products/widget/"; lastmod := None |}]
         () ∅
         [IndexFound; Fetching "https://example.com/a.xml"; FoundTotal 1]).
Proof.
  refine (proj1 (proj2 (@sitemap_without_loc_raises unit Site.platform 1
           Site.index_noloc_xml Site.index_noloc
           [ET.Elem (Site.sm "sitemap") None [Site.loc Site.a_url]]
           (ET.Elem (Site.sm "sitemap") None []) [] Site.start
           _ _ _)) _ _); vm_compute; reflexivity.
Defined.

(** C9, as stated, fails when an earlier entry fails first: here the
    first entry cannot be fetched, and [parse_sitemap] fails with the
    [RequestException] of that fetch although the second entry has no
    [<loc>]. *)
Lemma earlier_entry_fails_first :
  ET.find (ET.Elem (Site.sm "sitemap") None []) "sm" "loc" namespaces = None ∧
  @fromstring unit Site.platform Site.index_broken_xml =
  Some (ET.Elem (Site.sm "sitemapindex") None
          [ET.Elem (Site.sm "sitemap") None [Site.loc Site.broken_url];
           ET.Elem (Site.sm "sitemap") None []]) ∧
  @parse_sitemap unit Site.platform Site.index_broken_xml Site.start
  = Raise RequestException
      (@Build_state unit [] () ∅
         [IndexFound; Fetching "https://example.com/broken.xml"; FetchError]).
Proof. vm_compute. done. Qed.

(** C10. Exporting no record at all writes the output file and then
    fails: the frame of an empty list has no column [category], and the
    summary is computed after the file is written.  So the exporter
    fails although the destination can be written; with at least one
    record and such a destination it succeeds. *)
Theorem export_empty_writes_then_fails `{Platform Net} output (st : state Net) :
  let path := output_path output (net st) in
  to_excel_ok path (Pd.from_records []) = true →
  Pd.columns (Pd.from_records []) = [] ∧
  Pd.getitem (Pd.from_records []) "category" = None ∧
  export_to_excel [] output st =
  Raise KeyError {| urls := urls st; net := net st;
                    files := <[path := Pd.from_records []]> (files st);
                    log := log st ++ [Exported path] |} ∧
  (∀ c cs, to_excel_ok path (Pd.from_records (to_dict <$> c :: cs)) = true →
           ∃ st', export_to_excel (c :: cs) output st = Ok path st').
Proof.
  intros path Hok. split_and!; [done|done| |].
  - rewrite export_empty. cbv zeta. fold path. by rewrite Hok.
  - intros c cs Hok'. eexists. by apply export_nonempty.
Qed.

Lemma export_empty_writes_then_fails_witness :
  @export_to_excel unit Site.platform [] (Some "out.xlsx") Site.start
  = Raise KeyError
      (@Build_state unit [] () {[ "out.xlsx" := Pd.from_records [] ]}
         [Exported "out.xlsx"]).
Proof.
  refine (proj1 (proj2 (proj2
    (@export_empty_writes_then_fails unit Site.platform (Some "out.xlsx") Site.start
       _)))).
  vm_compute. reflexivity.
Defined.

(** * Further properties of the program *)

Section GrowthFacts.
Context `{Platform Net}.
Local Abbreviation state := (state Net).
Local Abbreviation M := (M Net).

Lemma extends_refl (st : state) : extends st st.
Proof. by split_and!. Qed.

Lemma extends_trans (st1 st2 st3 : state) :
  extends st1 st2 → extends st2 st3 → extends st1 st3.
Proof.
  intros (Hu1 & Hl1 & Hf1) (Hu2 & Hl2 & Hf2). split_and!.
  - by etrans.
  - by etrans.
  - by rewrite Hf2.
Qed.

Lemma extends_add_log ev (st : state) : extends st (add_log ev st).
Proof. split_and!; [done| |done]. by apply prefix_app_r. Qed.

Lemma grows_bind {A B} (m : M A) (k : A → M B) :
  grows m → (∀ a, grows (k a)) → grows (bind m k).
Proof.
  intros Hm Hk st. unfold bind. specialize (Hm st).
  destruct (m st) as [a st'|e st']; simpl in *; [|done].
  eapply extends_trans; [done|]. apply Hk.
Qed.

Lemma grows_except {A} e ev (m : M A) :
  grows m → grows (except_log_raise e ev m).
Proof.
  intros Hm st. unfold except_log_raise. specialize (Hm st).
  destruct (m st) as [a st'|e' st']; simpl in *; [done|].
  case_bool_decide; simpl; [|done].
  eapply extends_trans; [done|]. apply extends_add_log.
Qed.

Lemma grows_for_each {A} (f : A → M unit) l :
  (∀ x, grows (f x)) → grows (for_each f l).
Proof.
  intros Hf. induction l as [|x l IH]; simpl.
  - intros st. apply extends_refl.
  - by apply grows_bind.
Qed.

Lemma grows_logger ev : grows (logger (Net:=Net) ev).
Proof. intros st. apply extends_add_log. Qed.

Lemma grows_fetch u : grows (fetch_sitemap u).
Proof.
  intros st. rewrite fetch_sitemap_spec.
  destruct (requests_get (net st) u) as [[body|] n]; simpl.
  - split_and!; [done| |done]. by apply prefix_app_r.
  - split_and!; [done| |done]. rewrite <- (assoc_L (++)). by apply prefix_app_r.
Qed.

Lemma grows_visit_url u : grows (visit_url (Net:=Net) u).
Proof.
  intros st. rewrite visit_url_spec. simpl.
  split_and!; [|done..]. by apply prefix_app_r.
Qed.

Lemma grows_parse depth content : grows (parse_sitemap_depth depth content).
Proof.
  revert content. induction depth as [|depth' IH]; intros content.
  { intros st. apply extends_refl. }
  simpl. apply grows_except, grows_bind.
  { intros st. destruct (fromstring content); apply extends_refl. }
  intros root. apply grows_bind.
  { case_bool_decide; [intros st; apply extends_refl|].
    apply grows_bind; [apply grows_logger|].
    intros _. apply grows_for_each. intros e.
    unfold visit_sitemap. apply grows_bind.
    { destruct (ET.find _ _ _ _); intros st; apply extends_refl. }
    intros u. apply grows_bind; [apply grows_fetch|done]. }
  intros _. apply grows_bind.
  { apply grows_for_each, grows_visit_url. }
  intros _ st. apply extends_add_log.
Qed.

End GrowthFacts.

(** X1. [parse_sitemap] only accumulates, however it ends: the records
    that were in the list stay in front, in order, also when the call
    fails half way through a sitemap tree; the log is only appended to;
    and no file is written. *)
Theorem parse_only_accumulates `{Platform Net} depth content (st : state Net) :
  ∃ new_urls new_log,
    urls (state_of (parse_sitemap_depth depth content st)) = urls st ++ new_urls ∧
    log (state_of (parse_sitemap_depth depth content st)) = log st ++ new_log ∧
    files (state_of (parse_sitemap_depth depth content st)) = files st.
Proof.
  destruct (grows_parse depth content st) as ([new_urls Hu] & [new_log Hl] & Hf).
  by exists new_urls, new_log.
Qed.

Section RecursionFacts.
Context `{Platform Net}.
Local Abbreviation state := (state Net).
Local Abbreviation M := (M Net).

Lemma fetched_replicate_snoc (l : list string) k u :
  (l ++ [u]) ++ replicate k u = l ++ replicate (S k) u.
Proof. by rewrite <- (assoc_L (++)). Qed.

Lemma for_each_visit_mono (p1 p2 : string → M unit) es (st st' : state) :
  (∀ c s s', p1 c s = Ok () s' → p2 c s = Ok () s') →
  for_each (visit_sitemap p1) es st = Ok () st' →
  for_each (visit_sitemap p2) es st = Ok () st'.
Proof.
  intros Hp. revert st. induction es as [|e es IH]; intros st; [done|].
  cbn [for_each]. unfold bind at 1 2.
  destruct (visit_sitemap p1 e st) as [[] s1|ex s1] eqn:H1; [|done].
  intros Hrest.
  assert (visit_sitemap p2 e st = Ok () s1) as ->; [|by apply IH].
  unfold visit_sitemap, bind in *.
  destruct (ET.find e "sm" "loc" namespaces) as [loc|]; [|done].
  unfold ret in *.
  destruct (fetch_sitemap _ st) as [body s0|ex s0]; [|done].
  by apply Hp.
Qed.

Lemma parse_depth_step k content (st st' : state) :
  parse_sitemap_depth k content st = Ok () st' →
  parse_sitemap_depth (S k) content st = Ok () st'.
Proof.
  revert content st st'. induction k as [|k IH]; intros content st st'; [done|].
  destruct (fromstring content) as [root|] eqn:Hroot;
    [|by rewrite parse_sitemap_depth_malformed].
  rewrite !(parse_sitemap_depth_root _ _ root) by done.
  unfold except_log_raise.
  destruct (parse_root k root st) as [[] s1|ex s1] eqn:Hk;
    [|by case_bool_decide].
  intros [= ->].
  assert (parse_root (S k) root st = Ok () st') as ->; [|done].
  unfold parse_root in *. unfold bind at 1. unfold bind at 1 in Hk.
  case_bool_decide; [done|].
  unfold bind at 1. unfold bind at 1 in Hk. unfold logger at 1.
  unfold logger at 1 in Hk.
  destruct (for_each (visit_sitemap (parse_sitemap_depth k)) _ _)
    as [[] s2|ex s2] eqn:Hloop; [|done].
  by rewrite (for_each_visit_mono _ (parse_sitemap_depth (S k)) _ _ _ IH Hloop).
Qed.

End RecursionFacts.

(** X2. There is no guard against cycles: when the document served at a
    URL is an index whose first entry refers to that same URL,
    [parse_sitemap] never returns normally.  With [k] nested calls
    allowed it requests the URL [k] times and then fails with
    [RecursionError]; no record is added and no file written. *)
Theorem self_reference_exhausts_recursion `{Platform Net}
    u content root e rest loc k (st : state Net) :
  (∀ n, ∃ n', requests_get n u = (Some content, n')) →
  fromstring content = Some root →
  ET.findall root "sm" "sitemap" namespaces = e :: rest →
  ET.find e "sm" "loc" namespaces = Some loc →
  ET.text loc = Some u →
  ∃ st', parse_sitemap_depth k content st = Raise RecursionError st' ∧
         urls st' = urls st ∧ files st' = files st ∧
         fetched (log st') = fetched (log st) ++ replicate k u.
Proof.
  intros Hserve Hroot Hes Hloc Htext. revert st.
  induction k as [|k IH]; intros st.
  - exists st. simpl. by rewrite (right_id_L [] (++)).
  - rewrite (parse_sitemap_depth_root _ _ root) by done.
    unfold except_log_raise, parse_root. unfold bind at 1.
    rewrite Hes. rewrite bool_decide_false by done.
    unfold bind at 1. unfold logger at 1. cbn [for_each].
    unfold bind at 1. unfold visit_sitemap. rewrite Hloc, Htext.
    unfold bind at 1, ret at 1, bind at 1. rewrite fetch_sitemap_spec.
    cbn [py_str default net add_log]. unfold id.
    destruct (Hserve (net st)) as [n' ->].
    match goal with
    | |- context [parse_sitemap_depth k content ?s] =>
        destruct (IH s) as (st' & -> & Hu & Hf & Hl)
    end.
    exists st'. rewrite bool_decide_false by done.
    split_and!; [done..|].
    rewrite Hl. simpl. rewrite !fetched_app. simpl.
    rewrite ?(right_id_L [] (++)). apply fetched_replicate_snoc.
Qed.

Lemma self_reference_exhausts_recursion_witness :
  ∃ st', @parse_sitemap_depth unit Faulty.platform 3 Faulty.self_xml Site.start
         = Raise RecursionError st' ∧
         fetched (log st') = [Faulty.self_url; Faulty.self_url; Faulty.self_url].
Proof.
  edestruct (@self_reference_exhausts_recursion unit Faulty.platform
               Faulty.self_url Faulty.self_xml (Site.sitemapindex [Faulty.self_url])
               (ET.Elem (Site.sm "sitemap") None [Site.loc Faulty.self_url]) []
               (Site.loc Faulty.self_url) 3 Site.start)
    as (st' & Hrun & _ & _ & Hlog).
  - intros []. exists (). vm_compute. reflexivity.
  - vm_compute. reflexivity.
  - vm_compute. reflexivity.
  - vm_compute. reflexivity.
  - reflexivity.
  - exists st'. split; [exact Hrun|]. rewrite Hlog. reflexivity.
Defined.

(** X3. The number of nested calls allowed matters only when it is used
    up: a call of [parse_sitemap] that returns normally with [k] nested
    calls allowed returns the same state with any larger allowance. *)
Theorem parse_result_independent_of_allowance `{Platform Net}
    (k k' : nat) content (st st' : state Net) :
  (k ≤ k')%nat →
  parse_sitemap_depth k content st = Ok () st' →
  parse_sitemap_depth k' content st = Ok () st'.
Proof.
  intros Hle Hrun. induction Hle as [|k' Hle IH]; [done|].
  by apply parse_depth_step.
Qed.

Lemma parse_result_independent_of_allowance_witness :
  @parse_sitemap_depth unit Site.platform 7 Site.index_xml Site.start =
  Ok () (@Build_state unit
           [{| url := "https://example.com/products/widget/"; lastmod := None |};
            {| url := "https://example.com/blogs/news/my-post/"; lastmod := None |}]
           () ∅
           [IndexFound;
            Fetching "https://example.com/a.xml"; FoundTotal 1;
            Fetching "https://example.com/b.xml"; FoundTotal 2;
            FoundTotal 2]).
Proof.
  apply (@parse_result_independent_of_allowance unit Site.platform 2 7).
  - lia.
  - vm_compute. reflexivity.
Defined.

Section SubSitemapFailures.
Context `{Platform Net}.
Local Abbreviation state := (state Net).
Local Abbreviation M := (M Net).

Lemma parse_index_entry depth' content root pre e post (st st1 : state) :
  fromstring content = Some root →
  ET.findall root "sm" "sitemap" namespaces = pre ++ e :: post →
  for_each (visit_sitemap (parse_sitemap_depth depth')) pre
           (add_log IndexFound st) = Ok () st1 →
  ∀ ex st2,
    visit_sitemap (parse_sitemap_depth depth') e st1 = Raise ex st2 →
    parse_sitemap_depth (S depth') content st =
    if bool_decide (ex = ParseError) then Raise ex (add_log XmlError st2)
    else Raise ex st2.
Proof.
  intros Hroot Hes Hpre ex st2 Hvisit.
  rewrite (parse_sitemap_depth_root _ _ root) by done.
  unfold except_log_raise, parse_root. unfold bind at 1.
  rewrite Hes. rewrite bool_decide_false by (by destruct pre).
  unfold bind at 1. unfold logger at 1.
  rewrite for_each_app, Hpre. cbn [for_each]. unfold bind at 1.
  by rewrite Hvisit.
Qed.

End SubSitemapFailures.

(** X4. A sub-sitemap that cannot be fetched ends the whole traversal:
    when the entries before it were visited and the request for it
    fails, [parse_sitemap] logs the attempt and the error and fails with
    [RequestException].  The records gathered so far stay in the list;
    the later entries are not visited and the [<url>] entries of the
    index document itself are not added. *)
Theorem sub_sitemap_fetch_failure `{Platform Net}
    depth' content root pre e post loc n (st st1 : state Net) :
  fromstring content = Some root →
  ET.findall root "sm" "sitemap" namespaces = pre ++ e :: post →
  ET.find e "sm" "loc" namespaces = Some loc →
  for_each (visit_sitemap (parse_sitemap_depth depth')) pre
           (add_log IndexFound st) = Ok () st1 →
  requests_get (net st1) (py_str (ET.text loc)) = (None, n) →
  parse_sitemap_depth (S depth') content st =
  Raise RequestException
        {| urls := urls st1; net := n; files := files st1;
           log := log st1 ++ [Fetching (py_str (ET.text loc)); FetchError] |}.
Proof.
  intros Hroot Hes Hloc Hpre Hget.
  rewrite (parse_index_entry depth' content root pre e post st st1 Hroot Hes Hpre
             RequestException
             {| urls := urls st1; net := n; files := files st1;
                log := log st1 ++ [Fetching (py_str (ET.text loc)); FetchError] |}).
  - by rewrite bool_decide_false.
  - unfold visit_sitemap. rewrite Hloc. unfold bind at 1, ret at 1, bind at 1.
    rewrite fetch_sitemap_spec, Hget. by rewrite <- (assoc_L (++)).
Qed.

Lemma sub_sitemap_fetch_failure_witness :
  @parse_sitemap_depth unit Faulty.platform 2 Faulty.index_gone_xml Site.start =
  Raise RequestException
        (@Build_state unit
           [{| url := "https://example.com/products/widget/"; lastmod := None |}]
           () ∅
           [IndexFound; Fetching Site.a_url; FoundTotal 1;
            Fetching Site.broken_url; FetchError]).
Proof.
  refine (@sub_sitemap_fetch_failure unit Faulty.platform 1
            Faulty.index_gone_xml
            (Site.sitemapindex [Site.a_url; Site.broken_url])
            [ET.Elem (Site.sm "sitemap") None [Site.loc Site.a_url]]
            (ET.Elem (Site.sm "sitemap") None [Site.loc Site.broken_url]) []
            (Site.loc Site.broken_url) () Site.start
            (@Build_state unit
               [{| url := "https://example.com/products/widget/"; lastmod := None |}]
               () ∅ [IndexFound; Fetching Site.a_url; FoundTotal 1])
            _ _ _ _ _); vm_compute; reflexivity.
Defined.

(** X5. A sub-sitemap that is not well-formed XML ends the whole
    traversal with [ParseError], and the handler of every enclosing call
    logs it: the error line appears once for the sub-sitemap and once
    more for the index that refers to it.  The records gathered so far
    stay in the list. *)
Theorem sub_sitemap_malformed `{Platform Net}
    depth' content root pre e post loc body n (st st1 : state Net) :
  fromstring content = Some root →
  ET.findall root "sm" "sitemap" namespaces = pre ++ e :: post →
  ET.find e "sm" "loc" namespaces = Some loc →
  for_each (visit_sitemap (parse_sitemap_depth (S depth'))) pre
           (add_log IndexFound st) = Ok () st1 →
  requests_get (net st1) (py_str (ET.text loc)) = (Some body, n) →
  fromstring body = None →
  parse_sitemap_depth (S (S depth')) content st =
  Raise ParseError
        {| urls := urls st1; net := n; files := files st1;
           log := log st1 ++ [Fetching (py_str (ET.text loc)); XmlError; XmlError] |}.
Proof.
  intros Hroot Hes Hloc Hpre Hget Hbody.
  rewrite (parse_index_entry (S depth') content root pre e post st st1 Hroot Hes Hpre
             ParseError
             {| urls := urls st1; net := n; files := files st1;
                log := log st1 ++ [Fetching (py_str (ET.text loc)); XmlError] |}).
  - rewrite bool_decide_true by done. unfold add_log. simpl.
    by rewrite <- (assoc_L (++)).
  - unfold visit_sitemap. rewrite Hloc. unfold bind at 1, ret at 1, bind at 1.
    rewrite fetch_sitemap_spec, Hget.
    rewrite parse_sitemap_depth_malformed by done.
    unfold add_log. simpl. by rewrite <- (assoc_L (++)).
Qed.

Lemma sub_sitemap_malformed_witness :
  @parse_sitemap_depth unit Faulty.platform 2 Faulty.index_bad_xml Site.start =
  Raise ParseError
        (@Build_state unit
           [{| url := "https://example.com/products/widget/"; lastmod := None |}]
           () ∅
           [IndexFound; Fetching Site.a_url; FoundTotal 1;
            Fetching Faulty.bad_url; XmlError; XmlError]).
Proof.
  refine (@sub_sitemap_malformed unit Faulty.platform 0
            Faulty.index_bad_xml
            (Site.sitemapindex [Site.a_url; Faulty.bad_url])
            [ET.Elem (Site.sm "sitemap") None [Site.loc Site.a_url]]
            (ET.Elem (Site.sm "sitemap") None [Site.loc Faulty.bad_url]) []
            (Site.loc Faulty.bad_url) Site.bad_xml () Site.start
            (@Build_state unit
               [{| url := "https://example.com/products/widget/"; lastmod := None |}]
               () ∅ [IndexFound; Fetching Site.a_url; FoundTotal 1])
            _ _ _ _ _ _); vm_compute; reflexivity.
Defined.

Section TrailingSlash.

Lemma snoc_eq_inv {A} (l1 l2 : list A) x y :
  l1 ++ [x] = l2 ++ [y] → l1 = l2 ∧ x = y.
Proof. intros Heq. by apply app_inj_tail in Heq. Qed.

Lemma segments_end_not_slash segs :
  segs ≠ [] → Forall segment segs →
  ∃ body c, concat ((λ seg, slash :: seg) <$> segs) = body ++ [c] ∧ c ≠ slash.
Proof.
  intros Hne Hall. destruct segs as [|s0 segs0] using rev_ind; [done|].
  clear IHsegs0 Hne. apply Forall_app in Hall as [_ Hlast].
  apply Forall_singleton in Hlast as [Hne Hslash].
  destruct s0 as [|c s0] using rev_ind; [done|]. clear IHs0.
  rewrite fmap_app, concat_app. simpl. rewrite (right_id_L [] (++)).
  exists (concat ((λ seg, slash :: seg) <$> segs0) ++ slash :: s0), c.
  split.
  - by rewrite <- (assoc_L (++)).
  - intros ->. apply Hslash. set_solver.
Qed.

Lemma rule_matches_add_slash stem n path :
  newline ∉ «path» → last «path» ≠ Some slash →
  rule_matches stem n path → rule_matches stem n (path +:+ "/").
Proof.
  intros Hnl Hlast (pre & plural & segs & trail & eol & Heq & Hpl & Hlen & Hall & Htr & Heol).
  destruct Heol as [-> | ->]; last first.
  { exfalso. apply Hnl. rewrite Heq.
    change (slash :: ?x) with ([slash] ++ x).
    rewrite !elem_of_app. do 5 right. set_solver. }
  destruct Htr as [-> | ->]; last first.
  { exfalso. apply Hlast. rewrite Heq.
    change (slash :: ?x) with ([slash] ++ x).
    rewrite !(assoc_L (++)), (right_id_L [] (++)). apply last_snoc. }
  exists pre, plural, segs, [slash], []. split_and!; [|done..| by right | by left].
  rewrite chars_app, Heq. simpl.
  rewrite !(right_id_L [] (++)), <- !(assoc_L (++)). simpl.
  by rewrite <- !(assoc_L (++)).
Qed.

Lemma rule_matches_drop_slash stem n path :
  n ≠ 0 →
  rule_matches stem n (path +:+ "/") → rule_matches stem n path.
Proof.
  intros Hn (pre & plural & segs & trail & eol & Heq & Hpl & Hlen & Hall & Htr & Heol).
  rewrite chars_app in Heq. simpl in Heq.
  destruct Heol as [-> | ->]; last first.
  { exfalso.
    change (slash :: ?x) with ([slash] ++ x) in Heq.
    rewrite !(assoc_L (++)) in Heq. by apply snoc_eq_inv in Heq as [_ ?]. }
  rewrite (right_id_L [] (++)) in Heq.
  destruct Htr as [-> | ->].
  - exfalso. rewrite (right_id_L [] (++)) in Heq.
    destruct (segments_end_not_slash segs) as (body & c & Hc & Hne); [|done|].
    { intros ->. by apply Hn. }
    rewrite Hc in Heq.
    change (slash :: ?x) with ([slash] ++ x) in Heq.
    rewrite !(assoc_L (++)) in Heq. apply snoc_eq_inv in Heq as [_ Heq].
    by apply Hne.
  - change (slash :: ?x) with ([slash] ++ x) in Heq.
    rewrite !(assoc_L (++)) in Heq. apply snoc_eq_inv in Heq as [Heq _].
    exists pre, plural, segs, [], []. split_and!; [|done..| by left | by left].
    rewrite Heq, !(right_id_L [] (++)).
    by rewrite <- !(assoc_L (++)).
Qed.

Lemma search_trailing_slash pattern stem n path :
  (∀ p, Re.search pattern p = true ↔ rule_matches stem n p) →
  n ≠ 0 → newline ∉ «path» → last «path» ≠ Some slash →
  Re.search pattern (path +:+ "/") = Re.search pattern path.
Proof.
  intros Hspec Hn Hnl Hlast. apply Bool.eq_iff_eq_true.
  rewrite !Hspec. split.
  - by apply rule_matches_drop_slash.
  - by apply rule_matches_add_slash.
Qed.

End TrailingSlash.

(** X6. A closing slash does not change the category: a path without
    newline that does not already end with a slash gets the same
    category with a slash put after it. *)
Theorem trailing_slash_keeps_category (path : string) :
  newline ∉ «path» → last «path» ≠ Some slash →
  category_of_path (path +:+ "/") = category_of_path path.
Proof.
  intros Hnl Hlast. unfold category_of_path.
  rewrite (search_trailing_slash product_pattern "product" 1 path search_product),
          (search_trailing_slash collection_pattern "collection" 1 path search_collection),
          (search_trailing_slash blog_pattern "blog" 2 path search_blog);
    done.
Qed.

Lemma trailing_slash_keeps_category_witness :
  category_of_path ("/collections/summer" +:+ "/") =
  category_of_path "/collections/summer".
Proof.
  apply trailing_slash_keeps_category.
  - apply (bool_decide_unpack _). vm_compute. reflexivity.
  - vm_compute. discriminate.
Defined.

Section ExportMore.
Context `{Platform Net}.
Local Abbreviation state := (state Net).
Local Abbreviation M := (M Net).

Lemma from_records_sheet c cs :
  Pd.from_records (to_dict <$> c :: cs) =
  {| Pd.columns := ["url"; "category"; "lastmod"];
     Pd.rows := sheet_rows (c :: cs) |}.
Proof.
  unfold Pd.from_records. rewrite union_keys_records. f_equal.
  unfold sheet_rows. rewrite <- list_fmap_compose.
  by apply list_fmap_ext.
Qed.

Lemma export_write_failure cs output (st : state) :
  to_excel_ok (output_path output (net st))
              (Pd.from_records (to_dict <$> cs)) = false →
  export_to_excel cs output st = Raise WriteError st.
Proof.
  intros Hno. unfold export_to_excel, bind. cbn [net]. by rewrite Hno.
Qed.

Lemma value_counts_lookup col s :
  default 0 (Pd.value_counts col !! s) = length (filter (λ v, v = Some s) col).
Proof.
  induction col as [|[s'|] col IH]; simpl.
  - by rewrite lookup_empty.
  - destruct (decide (s' = s)) as [->|Hne].
    + rewrite lookup_insert_eq, filter_cons_True by done. simpl.
      by rewrite <- IH.
    + rewrite lookup_insert_ne by done.
      rewrite filter_cons_False by congruence. exact IH.
  - rewrite filter_cons_False by done. exact IH.
Qed.

Lemma count_categories (cs : list categorized_record) s :
  length (filter (λ v, v = Some s) (Some ∘ c_category <$> cs)) =
  length (filter (λ c, c_category c = s) cs).
Proof.
  induction cs as [|c cs IH]; [done|]. rewrite fmap_cons.
  destruct (decide (c_category c = s)) as [Hc|Hc].
  - rewrite !filter_cons_True; [|done|by simpl; rewrite Hc]. simpl.
    by rewrite IH.
  - rewrite !filter_cons_False; [done|done|]. simpl. congruence.
Qed.

Lemma extract_Ok sitemap_url cs (st st1 : state) :
  extract sitemap_url st = Ok cs st1 →
  mapM categorize_url (urls st1) = Some cs ∧ files st1 = files st.
Proof.
  intros Hex. split.
  - unfold extract, bind in Hex.
    destruct (init st) as [[] s1|e s1]; [|done].
    destruct (fetch_sitemap sitemap_url s1) as [body s2|e s2]; [|done].
    destruct (parse_sitemap body s2) as [[] s3|e s3]; [|done].
    unfold categorize_urls in Hex.
    destruct (mapM categorize_url (urls s3)) as [cs'|] eqn:Hcs; [|done].
    by injection Hex as -> ->.
  - pose proof (keeps_files_extract sitemap_url st) as Hf.
    by rewrite Hex in Hf.
Qed.

End ExportMore.

(** X7. The file the exporter writes for a non-empty list has the three
    columns [url], [category], [lastmod] in that order and one row per
    record, in the order of the list, with the record's url, category
    and lastmod (blank when absent).  It is stored under the output
    path, replacing what was there; no other file changes, and the
    accumulated list is not touched. *)
Theorem export_writes_one_row_per_record `{Platform Net} c cs output (st : state Net) :
  to_excel_ok (output_path output (net st))
              (Pd.from_records (to_dict <$> c :: cs)) = true →
  ∃ st', export_to_excel (c :: cs) output st = Ok (output_path output (net st)) st' ∧
         files st' !! output_path output (net st) =
         Some {| Pd.columns := ["url"; "category"; "lastmod"];
                 Pd.rows := sheet_rows (c :: cs) |} ∧
         length (sheet_rows (c :: cs)) = length (c :: cs) ∧
         (∀ other, other ≠ output_path output (net st) →
                   files st' !! other = files st !! other) ∧
         urls st' = urls st ∧ net st' = net st.
Proof.
  intros Hok. eexists. split; [by apply export_nonempty|].
  split_and!; [| |simpl..].
  - cbn [files]. by rewrite lookup_insert_eq, from_records_sheet.
  - unfold sheet_rows. by rewrite length_fmap.
  - intros other Hne. by rewrite lookup_insert_ne.
  - done.
  - done.
Qed.

Lemma export_writes_one_row_per_record_witness :
  ∃ st', @export_to_excel unit Site.platform
           [{| c_url := "https://example.com/about/"; c_category := "page";
               c_lastmod := None |}] (Some "out.xlsx") Site.start
         = Ok "out.xlsx" st' ∧
         files st' !! "out.xlsx" =
         Some {| Pd.columns := ["url"; "category"; "lastmod"];
                 Pd.rows := [[Some "https://example.com/about/"; Some "page"; None]] |}.
Proof.
  edestruct (@export_writes_one_row_per_record unit Site.platform
               {| c_url := "https://example.com/about/"; c_category := "page";
                  c_lastmod := None |} [] (Some "out.xlsx") Site.start)
    as (st' & Hrun & Hfile & _).
  - vm_compute. reflexivity.
  - exists st'. split; [exact Hrun|exact Hfile].
Defined.

(** X8. The summary the exporter logs last counts the records by
    category: for every category, the count recorded for it (none
    counting as zero) is the number of records of the list that have
    it. *)
Theorem export_summary_counts `{Platform Net} c cs output (st : state Net) :
  to_excel_ok (output_path output (net st))
              (Pd.from_records (to_dict <$> c :: cs)) = true →
  ∃ st' counts,
    export_to_excel (c :: cs) output st = Ok (output_path output (net st)) st' ∧
    last (log st') = Some (Summary counts) ∧
    ∀ category,
      default 0 (counts !! category) =
      length (filter (λ r, c_category r = category) (c :: cs)).
Proof.
  intros Hok. eexists _, _. split; [by apply export_nonempty|]. cbn [log].
  split; [by rewrite last_snoc|].
  intros category. by rewrite value_counts_lookup, count_categories.
Qed.

Lemma export_summary_counts_witness :
  ∃ st' counts,
    @export_to_excel unit Site.platform
      [{| c_url := "https://example.com/a"; c_category := "page"; c_lastmod := None |};
       {| c_url := "https://example.com/b"; c_category := "blog"; c_lastmod := None |};
       {| c_url := "https://example.com/c"; c_category := "page"; c_lastmod := None |}]
      (Some "out.xlsx") Site.start = Ok "out.xlsx" st' ∧
    last (log st') = Some (Summary counts) ∧
    default 0 (counts !! "page") = 2.
Proof.
  edestruct (@export_summary_counts unit Site.platform
      {| c_url := "https://example.com/a"; c_category := "page"; c_lastmod := None |}
      [{| c_url := "https://example.com/b"; c_category := "blog"; c_lastmod := None |};
       {| c_url := "https://example.com/c"; c_category := "page"; c_lastmod := None |}]
      (Some "out.xlsx") Site.start)
    as (st' & counts & Hrun & Hlast & Hcount).
  - vm_compute. reflexivity.
  - exists st', counts. split_and!; [exact Hrun|exact Hlast|].
    rewrite Hcount. vm_compute. reflexivity.
Defined.

(** X9. A run that ends with status 0 has found at least one URL, all
    accepted by [urlparse], and has written exactly one file: the frame
    of the categorized records under the output path; every other file
    is as before. *)
Theorem main_success_writes_the_records `{Platform Net}
    sitemap_url output (st st' : state Net) :
  main sitemap_url output st = (0, st') →
  urls st' ≠ [] ∧
  ∃ cs, mapM categorize_url (urls st') = Some cs ∧
        length cs = length (urls st') ∧
        files st' = <[output_path output (net st') :=
                        {| Pd.columns := ["url"; "category"; "lastmod"];
                           Pd.rows := sheet_rows cs |}]> (files st).
Proof.
  rewrite main_extract_export.
  destruct (extract sitemap_url st) as [cs st1|e st1] eqn:Hex; [|done].
  apply extract_Ok in Hex as [Hcs Hfiles].
  destruct cs as [|c cs].
  { rewrite export_empty. cbv zeta. by destruct (to_excel_ok _ _). }
  destruct (to_excel_ok (output_path output (net st1))
              (Pd.from_records (to_dict <$> c :: cs))) eqn:Hok;
    [|by rewrite export_write_failure].
  rewrite export_nonempty by done. intros [= <-]. cbn [urls net files].
  pose proof (length_mapM _ _ _ Hcs) as Hlen.
  split.
  - intros Hnil. rewrite Hnil in Hlen. done.
  - exists (c :: cs).
    change (Pd.from_records _) with (Pd.from_records (to_dict <$> c :: cs)).
    by rewrite from_records_sheet, Hfiles.
Qed.

Lemma main_success_writes_the_records_witness :
  urls (@main unit Site.platform Site.a_url None Site.start).2 ≠ [].
Proof.
  refine (proj1 (@main_success_writes_the_records unit Site.platform
                   Site.a_url None Site.start
                   (@main unit Site.platform Site.a_url None Site.start).2 _)).
  vm_compute. reflexivity.
Defined.

(** X10. When the root sitemap cannot be fetched, the run ends with
    status 1 after this one request: nothing was accumulated, no file is
    written, and the failure is logged twice, by the fetcher and by
    [main]. *)
Theorem root_fetch_failure `{Platform Net} sitemap_url output n (st : state Net) :
  requests_get (net st) sitemap_url = (None, n) →
  main sitemap_url output st =
  (1, {| urls := []; net := n; files := files st;
         log := log st ++ [Fetching sitemap_url; FetchError;
                           ProcessingError RequestException] |}).
Proof.
  intros Hget. unfold main, bind, init.
  rewrite fetch_sitemap_spec. simpl. rewrite Hget.
  unfold add_log. simpl. by rewrite <- !(assoc_L (++)).
Qed.

Lemma root_fetch_failure_witness :
  @main unit Site.platform "https://example.com/missing.xml" None Site.start =
  (1, @Build_state unit [] () ∅
        [Fetching "https://example.com/missing.xml"; FetchError;
         ProcessingError RequestException]).
Proof.
  apply (@root_fetch_failure unit Site.platform "https://example.com/missing.xml"
           None () Site.start).
  vm_compute. reflexivity.
Defined.

(** X11. The whole pipeline on a [<urlset>] root: when the root is
    fetched and parsed, has no [<sitemap>] entries, and its records are
    all accepted by [urlparse] and not empty, the run ends with status
    0; the list holds the records of the document, the file holds one
    row per record, and the log has the four lines of a good run. *)
Theorem main_on_urlset `{Platform Net}
    sitemap_url output content root n d c cs (st : state Net) :
  recursion_limit = S d →
  requests_get (net st) sitemap_url = (Some content, n) →
  fromstring content = Some root →
  ET.findall root "sm" "sitemap" namespaces = [] →
  mapM categorize_url (records_of root) = Some (c :: cs) →
  to_excel_ok (output_path output n)
              (Pd.from_records (to_dict <$> c :: cs)) = true →
  main sitemap_url output st =
  (0, {| urls := records_of root; net := n;
         files := <[output_path output n :=
                      {| Pd.columns := ["url"; "category"; "lastmod"];
                         Pd.rows := sheet_rows (c :: cs) |}]> (files st);
         log := log st ++
                [Fetching sitemap_url;
                 FoundTotal (length (records_of root));
                 Exported (output_path output n);
                 Summary (Pd.value_counts (Some ∘ c_category <$> c :: cs))] |}).
Proof.
  intros Hlimit Hget Hroot Hnone Hcs Hok. rewrite <- from_records_sheet.
  rewrite main_extract_export. unfold extract, bind, init.
  rewrite fetch_sitemap_spec. simpl. rewrite Hget.
  unfold parse_sitemap. rewrite Hlimit.
  rewrite (parse_sitemap_depth_urlset _ _ root) by done. simpl.
  unfold categorize_urls. simpl. rewrite Hcs.
  rewrite export_nonempty by done. simpl.
  by rewrite <- !(assoc_L (++)).
Qed.

Lemma main_on_urlset_witness :
  (@main unit Site.platform Site.a_url (Some "out.xlsx") Site.start).1 = 0.
Proof.
  rewrite (@main_on_urlset unit Site.platform Site.a_url (Some "out.xlsx")
             Site.a_xml (Site.urlset ["https://example.com/products/widget/"])
             () 99
             {| c_url := "https://example.com/products/widget/";
                c_category := "product"; c_lastmod := None |} []
             Site.start); [reflexivity|vm_compute; reflexivity..].
Defined.

Section Whitespace.
Import UrlLib.
Context `{NetlocChecks}.

Lemma lstrip_app_all p (ws s : chars) :
  forallb p ws = true → lstrip p (ws ++ s) = lstrip p s.
Proof.
  induction ws as [|c ws IH]; [done|]. simpl.
  destruct (p c); [exact IH|done].
Qed.

Lemma unsafe_is_c0 c : c ∈ unsafe_url_bytes → c0_control_or_space c = true.
Proof.
  unfold unsafe_url_bytes. rewrite !elem_of_cons, elem_of_nil.
  by intros [->|[->|[->|[]]]].
Qed.

Lemma filter_safe_idemp (s : chars) :
  filter (λ c, c ∉ unsafe_url_bytes) (filter (λ c, c ∉ unsafe_url_bytes) s) =
  filter (λ c, c ∉ unsafe_url_bytes) s.
Proof.
  induction s as [|c s IH]; [done|].
  destruct (decide (c ∈ unsafe_url_bytes)) as [Hc|Hc].
  - rewrite (filter_cons_False _ c s); [exact IH|]. by intros Hn.
  - rewrite (filter_cons_True _ c s) by done.
    rewrite filter_cons_True by done. by rewrite IH.
Qed.

Lemma filter_lstrip_filter (s : chars) :
  filter (λ c, c ∉ unsafe_url_bytes)
         (lstrip c0_control_or_space (filter (λ c, c ∉ unsafe_url_bytes) s)) =
  filter (λ c, c ∉ unsafe_url_bytes) (lstrip c0_control_or_space s).
Proof.
  induction s as [|c s IH]; [done|].
  destruct (decide (c ∈ unsafe_url_bytes)) as [Hc|Hc].
  - rewrite (filter_cons_False _ c s) by (by intros Hn).
    cbn [lstrip]. by rewrite (unsafe_is_c0 c Hc).
  - rewrite (filter_cons_True _ c s) by done. cbn [lstrip].
    destruct (c0_control_or_space c); [exact IH|].
    rewrite !filter_cons_True by done. by rewrite filter_safe_idemp.
Qed.

Lemma urlsplit_leading_space (ws s : chars) :
  forallb c0_control_or_space ws = true → urlsplit (ws ++ s) = urlsplit s.
Proof. intros Hws. unfold urlsplit. by rewrite lstrip_app_all. Qed.

Lemma urlsplit_unsafe_removed (s : chars) :
  urlsplit (filter (λ c, c ∉ unsafe_url_bytes) s) = urlsplit s.
Proof. unfold urlsplit. cbv zeta. by rewrite filter_lstrip_filter. Qed.

Lemma urlparse_path_leading_space (ws u : string) :
  forallb c0_control_or_space «ws» = true →
  urlparse_path (ws +:+ u) = urlparse_path u.
Proof.
  intros Hws. unfold urlparse_path, urlparse_path_chars.
  by rewrite chars_app, urlsplit_leading_space.
Qed.

Lemma urlparse_path_unsafe_removed (u : string) :
  urlparse_path (string_of_list_ascii (filter (λ c, c ∉ unsafe_url_bytes) «u»)) =
  urlparse_path u.
Proof.
  unfold urlparse_path, urlparse_path_chars.
  by rewrite list_ascii_of_string_of_list_ascii, urlsplit_unsafe_removed.
Qed.

End Whitespace.

Section RuleOverlap.

Lemma last_slash_unique (l1 l2 t1 t2 : chars) :
  slash ∉ t1 → slash ∉ t2 →
  l1 ++ slash :: t1 = l2 ++ slash :: t2 → l1 = l2 ∧ t1 = t2.
Proof.
  revert l2. induction l1 as [|a l1 IH]; intros [|b l2] H1 H2 Heq;
    simpl in Heq.
  - by injection Heq as ->.
  - injection Heq as <- ->. exfalso. apply H1. set_solver.
  - injection Heq as -> <-. exfalso. apply H2. set_solver.
  - injection Heq as -> Heq. by destruct (IH l2 H1 H2 Heq) as [-> ->].
Qed.

Lemma two_slash_unique (A W T A' W' T' : chars) :
  slash ∉ W → slash ∉ T → slash ∉ W' → slash ∉ T' →
  A ++ slash :: W ++ slash :: T = A' ++ slash :: W' ++ slash :: T' →
  W = W' ∧ T = T'.
Proof.
  intros HW HT HW' HT' Heq.
  assert (∀ X Y Z : chars,
            X ++ slash :: Y ++ slash :: Z = (X ++ slash :: Y) ++ slash :: Z)
    as Hre by (intros; by rewrite <- (assoc_L (++))).
  rewrite !Hre in Heq.
  apply last_slash_unique in Heq as [Heq ->]; [|done..].
  by apply last_slash_unique in Heq as [_ ->].
Qed.

Lemma tail_unique (A W T tr A' W' T' tr' : chars) :
  slash ∉ W → slash ∉ T → T ≠ [] → optional slash tr →
  slash ∉ W' → slash ∉ T' → T' ≠ [] → optional slash tr' →
  A ++ slash :: W ++ slash :: T ++ tr = A' ++ slash :: W' ++ slash :: T' ++ tr' →
  W = W'.
Proof.
  intros HW HT HTne Htr HW' HT' HTne' Htr' Heq.
  assert (∀ X Y Z U : chars,
            X ++ slash :: Y ++ slash :: Z ++ slash :: U =
            (X ++ slash :: Y ++ slash :: Z) ++ slash :: U) as Hre3.
  { intros. rewrite <- (assoc_L (++)). simpl. by rewrite <- (assoc_L (++)). }
  assert (∀ X Y Z : chars,
            X ++ slash :: Y ++ slash :: Z = (X ++ slash :: Y) ++ slash :: Z)
    as Hre2 by (intros; by rewrite <- (assoc_L (++))).
  destruct Htr as [-> | ->], Htr' as [-> | ->].
  - rewrite !(right_id_L [] (++)) in Heq.
    by apply two_slash_unique in Heq as [-> _].
  - rewrite (right_id_L [] (++)) in Heq.
    rewrite Hre3, Hre2 in Heq.
    apply last_slash_unique in Heq as [_ Heq]; [done|done|apply not_elem_of_nil].
  - rewrite (right_id_L [] (++) T') in Heq.
    rewrite Hre3, (Hre2 A') in Heq.
    apply last_slash_unique in Heq as [_ Heq]; [done|apply not_elem_of_nil|done].
  - rewrite !Hre3 in Heq.
    apply last_slash_unique in Heq as [Heq _]; [|apply not_elem_of_nil..].
    by apply two_slash_unique in Heq as [-> _].
Qed.

(** On a path without newline whose last two components are [W] and
    [T], a rule with one segment matches exactly when [W] is the stem or
    its plural. *)
Lemma rule1_iff stem path (A W T tr : chars) :
  slash ∉ «stem» → newline ∉ «path» →
  «path» = A ++ slash :: W ++ slash :: T ++ tr →
  slash ∉ W → slash ∉ T → T ≠ [] → optional slash tr →
  rule_matches stem 1 path ↔ W = «stem» ∨ W = «stem» ++ ["s"%char].
Proof.
  intros Hstem Hnl Hpath HW HT HTne Htr. split.
  - intros (pre & plural & segs & tr' & eol & Heq & Hpl & Hlen & Hall & Htr' & Heol).
    destruct segs as [|seg [|? ?]]; try done.
    apply Forall_singleton in Hall as [Hne Hsl].
    destruct Heol as [-> | ->]; last first.
    { exfalso. apply Hnl. rewrite Heq.
      change (slash :: ?x) with ([slash] ++ x).
      rewrite !elem_of_app. do 5 right. set_solver. }
    simpl in Heq. rewrite !(right_id_L [] (++)) in Heq.
    rewrite Hpath in Heq.
    assert (pre ++ slash :: «stem» ++ plural ++ slash :: seg ++ tr' =
            pre ++ slash :: («stem» ++ plural) ++ slash :: seg ++ tr') as Hre.
    { by rewrite <- !(assoc_L (++)). }
    rewrite Hre in Heq.
    apply tail_unique in Heq; [|try done..].
    + destruct Hpl as [-> | ->]; [left|right]; [|done].
      by rewrite (right_id_L [] (++)) in Heq.
    + rewrite not_elem_of_app. split; [done|].
      destruct Hpl as [-> | ->]; [apply not_elem_of_nil|].
      rewrite not_elem_of_cons. split; [done|apply not_elem_of_nil].
  - intros HWs.
    exists A, (if decide (W = «stem») then [] else ["s"%char]), [T], tr, [].
    split_and!; [|case_decide; [by left|by right]|done|
                 by apply Forall_singleton|done|by left].
    rewrite Hpath. simpl. rewrite !(right_id_L [] (++)).
    case_decide as Hd.
    + by rewrite Hd.
    + destruct HWs as [->| ->]; [done|]. by rewrite <- !(assoc_L (++)).
Qed.

Lemma chars_inj (s t : string) : «s» = «t» → s = t.
Proof.
  intros Heq. rewrite <- (string_of_list_ascii_of_string s),
    <- (string_of_list_ascii_of_string t). by rewrite Heq.
Qed.

End RuleOverlap.

(** X12. [urlparse] discards two kinds of white space, and only these:
    characters of code point 0 to 32 in front of the URL, and tabs,
    carriage returns and line feeds wherever they stand.  The URL with
    them and the URL without them are both rejected, or both get the
    same category.  Other white space is kept and is seen by the
    patterns: a space at the end of a URL is part of its path, and can
    change the category. *)
Theorem leading_space_and_line_breaks_ignored `{Platform Net} :
  (∀ (ws u : string) lm,
     forallb UrlLib.c0_control_or_space «ws» = true →
     c_category <$> categorize_url {| url := ws +:+ u; lastmod := lm |} =
     c_category <$> categorize_url {| url := u; lastmod := lm |}) ∧
  (∀ (u : string) lm,
     c_category <$> categorize_url
       {| url := string_of_list_ascii
                   (filter (λ c, c ∉ [tab; carriage_return; newline]) «u»);
          lastmod := lm |} =
     c_category <$> categorize_url {| url := u; lastmod := lm |}) ∧
  (c_category <$> categorize_url
     {| url := "https://example.com/products/"; lastmod := None |} = Some "page" ∧
   c_category <$> categorize_url
     {| url := "https://example.com/products/" +:+ " "; lastmod := None |} =
   Some "product").
Proof.
  split_and!.
  - intros ws u lm Hws. rewrite !categorize_url_path. cbn [url].
    rewrite (urlparse_path_leading_space ws u Hws).
    by destruct (UrlLib.urlparse_path u).
  - intros u lm. rewrite !categorize_url_path. cbn [url].
    pose proof (urlparse_path_unsafe_removed u) as Hrm.
    unfold UrlLib.unsafe_url_bytes in Hrm. rewrite Hrm.
    by destruct (UrlLib.urlparse_path u).
  - vm_compute. reflexivity.
  - vm_compute. reflexivity.
Qed.

Lemma leading_space_and_line_breaks_ignored_witness :
  c_category <$> @categorize_url unit Site.platform
    {| url := " " +:+ "https://example.com/products/widget"; lastmod := None |} =
  c_category <$> @categorize_url unit Site.platform
    {| url := "https://example.com/products/widget"; lastmod := None |}.
Proof.
  refine (proj1 (@leading_space_and_line_breaks_ignored unit Site.platform) " "
            "https://example.com/products/widget" None _).
  vm_compute. reflexivity.
Defined.

(** X13. The product rule and the collection rule never both apply to a
    path without newline, so the order in which the code tests these two
    is immaterial. *)
Theorem product_collection_disjoint (path : string) :
  newline ∉ «path» →
  ¬ (Re.search product_pattern path = true ∧
     Re.search collection_pattern path = true).
Proof.
  intros Hnl [Hp Hc].
  apply search_product in Hp. apply search_collection in Hc.
  destruct Hp as (pre & plural & segs & tr & eol & Heq & Hpl & Hlen & Hall & Htr & Heol).
  destruct segs as [|seg [|? ?]]; try done.
  apply Forall_singleton in Hall as [Hne Hsl].
  destruct Heol as [-> | ->]; last first.
  { apply Hnl. rewrite Heq.
    change (slash :: ?x) with ([slash] ++ x).
    rewrite !elem_of_app. do 5 right. set_solver. }
  simpl in Heq. rewrite !(right_id_L [] (++)) in Heq.
  assert («path» = pre ++ slash :: («"product"» ++ plural) ++ slash :: seg ++ tr)
    as Hpath.
  { rewrite Heq. by rewrite <- !(assoc_L (++)). }
  assert (slash ∉ «"product"» ++ plural) as HW.
  { destruct Hpl as [-> | ->]; by apply (bool_decide_unpack _). }
  assert (slash ∉ «"collection"») as Hstem by (by apply (bool_decide_unpack _)).
  apply (rule1_iff "collection" path pre («"product"» ++ plural) seg tr
           Hstem Hnl Hpath HW Hsl Hne Htr) in Hc.
  destruct Hpl as [-> | ->]; by destruct Hc.
Qed.

Lemma product_collection_disjoint_witness :
  ¬ (Re.search product_pattern "/collections/products/widget" = true ∧
     Re.search collection_pattern "/collections/products/widget" = true).
Proof.
  apply product_collection_disjoint.
  apply (bool_decide_unpack _). vm_compute. reflexivity.
Defined.

(** X14. The blog rule does overlap with the other two, and they are
    tested first: a path that ends with [/blog(s)/<handle>/<post>] (and
    an optional slash) is categorized by the handle.  It is a product
    when the handle is [product] or [products], a collection when the
    handle is [collection] or [collections], and a blog otherwise. *)
Theorem blog_handle_decides_category (pre plural handle post trail : string) :
  plural ∈ [""; "s"] → trail ∈ [""; "/"] →
  segment «handle» → segment «post» →
  newline ∉ «pre +:+ "/blog" +:+ plural +:+ "/" +:+ handle +:+ "/" +:+ post +:+ trail» →
  category_of_path
    (pre +:+ "/blog" +:+ plural +:+ "/" +:+ handle +:+ "/" +:+ post +:+ trail) =
  if bool_decide (handle ∈ ["product"; "products"]) then "product"
  else if bool_decide (handle ∈ ["collection"; "collections"]) then "collection"
  else "blog".
Proof.
  intros Hpl Htr [Hhne Hhsl] [Hpne Hpsl] Hnl.
  set (path := pre +:+ "/blog" +:+ plural +:+ "/" +:+ handle +:+ "/" +:+ post +:+ trail)
    in *.
  assert («path» = («pre» ++ «"/blog"» ++ «plural») ++
                   slash :: «handle» ++ slash :: «post» ++ «trail») as Hpath.
  { unfold path. rewrite !chars_app. simpl. by rewrite <- !(assoc_L (++)). }
  assert (optional "s" «plural») as Hopl.
  { rewrite !elem_of_cons, elem_of_nil in Hpl.
    destruct Hpl as [->|[->|[]]]; [by left|by right]. }
  assert (optional slash «trail») as Hotr.
  { rewrite !elem_of_cons, elem_of_nil in Htr.
    destruct Htr as [->|[->|[]]]; [by left|by right]. }
  assert (rule_matches "blog" 2 path) as Hblog.
  { exists «pre», «plural», [«handle»; «post»], «trail», [].
    split_and!; [|done|done| |done|by left].
    - rewrite Hpath. simpl. rewrite !(right_id_L [] (++)).
      by rewrite <- !(assoc_L (++)).
    - by repeat constructor. }
  assert (slash ∉ «"product"») as Hs1 by (by apply (bool_decide_unpack _)).
  assert (slash ∉ «"collection"») as Hs2 by (by apply (bool_decide_unpack _)).
  pose proof (rule1_iff "product" path _ _ _ _
                Hs1 Hnl Hpath Hhsl Hpsl Hpne Hotr) as Hprod.
  pose proof (rule1_iff "collection" path _ _ _ _
                Hs2 Hnl Hpath Hhsl Hpsl Hpne Hotr) as Hcoll.
  assert (rule_matches "product" 1 path ↔ handle ∈ ["product"; "products"])
    as Hprod'.
  { rewrite Hprod, !elem_of_cons, elem_of_nil. split.
    - intros [Hp|Hp]; [left|right; left].
      + by apply (chars_inj handle "product").
      + by apply (chars_inj handle "products").
    - intros [->|[->|[]]]; [by left|by right]. }
  assert (rule_matches "collection" 1 path ↔ handle ∈ ["collection"; "collections"])
    as Hcoll'.
  { rewrite Hcoll, !elem_of_cons, elem_of_nil. split.
    - intros [Hp|Hp]; [left|right; left].
      + by apply (chars_inj handle "collection").
      + by apply (chars_inj handle "collections").
    - intros [->|[->|[]]]; [by left|by right]. }
  destruct (category_of_path_rules path) as (Hr1 & Hr2 & Hr3 & _).
  case_bool_decide as H1; [by apply Hr1, Hprod'|].
  case_bool_decide as H2; [apply Hr2; [by rewrite Hprod'|by apply Hcoll']|].
  apply Hr3; [by rewrite Hprod'|by rewrite Hcoll'|done].
Qed.

Lemma blog_handle_decides_category_witness :
  category_of_path ("" +:+ "/blog" +:+ "s" +:+ "/" +:+ "products" +:+ "/" +:+
                    "our-new-range" +:+ "") = "product".
Proof.
  refine (blog_handle_decides_category "" "s" "products" "our-new-range" "" _ _ _ _ _).
  - set_solver.
  - set_solver.
  - split; [done|]. apply (bool_decide_unpack _). vm_compute. reflexivity.
  - split; [done|]. apply (bool_decide_unpack _). vm_compute. reflexivity.
  - apply (bool_decide_unpack _). vm_compute. reflexivity.
Defined.

(** X15. Whatever the outcome, a run changes no file other than the one
    at its output path: every other file is afterwards as it was
    before. *)
Theorem main_touches_only_output_file `{Platform Net}
    sitemap_url output (st : state Net) other :
  other ≠ output_path output (net (main sitemap_url output st).2) →
  files (main sitemap_url output st).2 !! other = files st !! other.
Proof.
  rewrite main_extract_export.
  pose proof (keeps_files_extract sitemap_url st) as Hfiles.
  destruct (extract sitemap_url st) as [cs st1|e st1]; simpl in Hfiles.
  - destruct cs as [|c cs].
    + rewrite export_empty. cbv zeta.
      destruct (to_excel_ok _ _); simpl; intros Hne; [|by rewrite Hfiles].
      by rewrite lookup_insert_ne, Hfiles.
    + destruct (to_excel_ok (output_path output (net st1))
                  (Pd.from_records (to_dict <$> c :: cs))) eqn:Hok.
      * rewrite export_nonempty by done. cbn [snd files net]. intros Hne.
        by rewrite lookup_insert_ne, Hfiles.
      * rewrite export_write_failure by done. simpl. intros _.
        by rewrite Hfiles.
  - simpl. intros _. by rewrite Hfiles.
Qed.

Lemma main_touches_only_output_file_witness :
  files (@main unit Site.platform Site.a_url (Some "out.xlsx") Site.start).2
    !! "other.xlsx" = files Site.start !! "other.xlsx".
Proof.
  apply (@main_touches_only_output_file unit Site.platform).
  apply (bool_decide_unpack _). vm_compute. reflexivity.
Defined.
